(** * The contact-form controller of [js/script.js]

    A shallow embedding of the form validation and submission code of
    [js/script.js] (functions [validateField], [showFieldError],
    [clearFieldError], [getFieldLabel], [isValidEmail], [handleFormSubmit]
    and [showFormStatus]) together with the properties that the
    specification states about them.

    Conventions.
    - A JavaScript string is the list of its UTF-16 code units, so
      [length] is JavaScript's [.length].
    - The DOM is explicit state: every handler takes the pieces of the
      page it touches and returns them as it leaves them.  The markup of
      the page is not part of the script: the form may have any fields,
      a field may or may not have an error element (the script tests
      for it), and the status element and the submit control exist (the
      script uses them without a test).
    - The [async] handler [handleFormSubmit] is split at its single
      [await] into the part that runs on the submit event and the part
      that runs when the awaited promise settles.
    - Time is a clock in milliseconds that only the event [Elapse]
      advances; the callbacks given to [setTimeout] run when the clock
      reaches their time. *)

From Stdlib Require Import String Ascii NArith Lia.
From stdpp Require Import base numbers list option gmap.

#[local] Open Scope N_scope.
#[local] Open Scope list_scope.

(* ===================================================================== *)
(** ** JavaScript strings *)
(* ===================================================================== *)

Module JsString.

(** A UTF-16 code unit.  Real code units are below [65536]; nothing
    below needs the bound. *)
Definition code_unit : Type := N.

Abbreviation js_string := (list N).

(** The code units of an ASCII literal of the source. *)
Fixpoint lit (s : string) : js_string :=
  match s with
  | EmptyString => []
  | String a rest => N_of_ascii a :: lit rest
  end.

(** ECMAScript [WhiteSpace] and [LineTerminator] code points: the set
    removed by [String.prototype.trim] and matched by [\s]. *)
Definition isWhiteSpace (c : code_unit) : bool :=
  (c =? 0x0009) || (c =? 0x000A) || (c =? 0x000B) || (c =? 0x000C) ||
  (c =? 0x000D) || (c =? 0x0020) || (c =? 0x00A0) || (c =? 0x1680) ||
  ((0x2000 <=? c) && (c <=? 0x200A)) ||
  (c =? 0x2028) || (c =? 0x2029) || (c =? 0x202F) || (c =? 0x205F) ||
  (c =? 0x3000) || (c =? 0xFEFF).

Fixpoint trimStart (s : js_string) : js_string :=
  match s with
  | c :: rest => if isWhiteSpace c then trimStart rest else s
  | [] => []
  end.

Definition trimEnd (s : js_string) : js_string :=
  rev (trimStart (rev s)).

(** [String.prototype.trim]. *)
Definition trim (s : js_string) : js_string := trimEnd (trimStart s).

(** ToBoolean on a string: only the empty string is falsy. *)
Definition truthy (s : js_string) : bool :=
  match s with [] => false | _ :: _ => true end.

(** [a < b] on the [.length] of a string. *)
Definition length_lt (s : js_string) (n : nat) : bool :=
  Nat.ltb (length s) n.

End JsString.
Export JsString.

(* ===================================================================== *)
(** ** Regular expressions *)
(* ===================================================================== *)

Module Regex.

(** The fragment of the pattern language that the source uses:
    character classes, concatenation and the [+] quantifier, over the
    usual core of regular expressions. *)
Inductive regex : Type :=
| Void
| Eps
| Class (p : code_unit -> bool)
| Seq (r1 r2 : regex)
| Alt (r1 r2 : regex)
| Star (r : regex).

(** [r+] *)
Definition Plus (r : regex) : regex := Seq r (Star r).

(** A literal character. *)
Definition Chr (c : code_unit) : regex := Class (N.eqb c).

Fixpoint nullable (r : regex) : bool :=
  match r with
  | Void => false
  | Eps => true
  | Class _ => false
  | Seq r1 r2 => nullable r1 && nullable r2
  | Alt r1 r2 => nullable r1 || nullable r2
  | Star _ => true
  end.

Fixpoint deriv (c : code_unit) (r : regex) : regex :=
  match r with
  | Void => Void
  | Eps => Void
  | Class p => if p c then Eps else Void
  | Seq r1 r2 =>
      if nullable r1
      then Alt (Seq (deriv c r1) r2) (deriv c r2)
      else Seq (deriv c r1) r2
  | Alt r1 r2 => Alt (deriv c r1) (deriv c r2)
  | Star r1 => Seq (deriv c r1) (Star r1)
  end.

(** [/^r$/.test(s)] without the [m] flag: the whole of [s] must match. *)
Fixpoint test_anchored (r : regex) (s : js_string) : bool :=
  match s with
  | [] => nullable r
  | c :: rest => test_anchored (deriv c r) rest
  end.

(** The language of a pattern. *)
Inductive Lang : regex -> js_string -> Prop :=
| LEps : Lang Eps []
| LClass p c : p c = true -> Lang (Class p) [c]
| LSeq r1 r2 s1 s2 : Lang r1 s1 -> Lang r2 s2 -> Lang (Seq r1 r2) (s1 ++ s2)
| LAltL r1 r2 s : Lang r1 s -> Lang (Alt r1 r2) s
| LAltR r1 r2 s : Lang r2 s -> Lang (Alt r1 r2) s
| LStarNil r : Lang (Star r) []
| LStarCons r s1 s2 :
    Lang r s1 -> Lang (Star r) s2 -> Lang (Star r) (s1 ++ s2).

End Regex.
Export Regex.

(* ===================================================================== *)
(** ** JavaScript values and property lookup *)
(* ===================================================================== *)

Module JsValue.

(** The values that the controller meets: what a property read on the
    [labels] object of [getFieldLabel] can produce, and the errors that
    a submission can fail with. *)
Inductive jsval : Type :=
| VUndefined
| VString (s : js_string)
| VBuiltin (fname : js_string)   (* a built-in function object *)
| VObjectPrototype               (* the object [Object.prototype] *)
| VError (message : js_string).  (* [new Error(message)] *)

Definition ToBoolean (v : jsval) : bool :=
  match v with
  | VUndefined => false
  | VString s => truthy s
  | VBuiltin _ => true
  | VObjectPrototype => true
  | VError _ => true
  end.

(** [a || b] *)
Definition logicalOr (a b : jsval) : jsval :=
  if ToBoolean a then a else b.

(** Property lookup in a list of own properties. *)
Fixpoint assoc (props : list (js_string * jsval)) (key : js_string)
  : option jsval :=
  match props with
  | [] => None
  | (k, v) :: rest => if decide (k = key) then Some v else assoc rest key
  end.

(** The properties of [Object.prototype] (ECMAScript 20.1.3 and B.2.2),
    which every object literal inherits.  [constructor] is the function
    [Object]; [__proto__] is an accessor whose getter returns the
    prototype of the receiver, which for an object literal is
    [Object.prototype] itself. *)
Definition ObjectPrototype : list (js_string * jsval) :=
  [ (lit "constructor", VBuiltin (lit "Object"));
    (lit "hasOwnProperty", VBuiltin (lit "hasOwnProperty"));
    (lit "isPrototypeOf", VBuiltin (lit "isPrototypeOf"));
    (lit "propertyIsEnumerable", VBuiltin (lit "propertyIsEnumerable"));
    (lit "toLocaleString", VBuiltin (lit "toLocaleString"));
    (lit "toString", VBuiltin (lit "toString"));
    (lit "valueOf", VBuiltin (lit "valueOf"));
    (lit "__defineGetter__", VBuiltin (lit "__defineGetter__"));
    (lit "__defineSetter__", VBuiltin (lit "__defineSetter__"));
    (lit "__lookupGetter__", VBuiltin (lit "__lookupGetter__"));
    (lit "__lookupSetter__", VBuiltin (lit "__lookupSetter__"));
    (lit "__proto__", VObjectPrototype) ].

(** [obj[key]] for an object literal with own properties [own]: the own
    property if there is one, else the inherited one, else [undefined]. *)
Definition Get (own : list (js_string * jsval)) (key : js_string) : jsval :=
  match assoc own key with
  | Some v => v
  | None =>
      match assoc ObjectPrototype key with
      | Some v => v
      | None => VUndefined
      end
  end.

End JsValue.
Export JsValue.

(* ===================================================================== *)
(** ** The page *)
(* ===================================================================== *)

Module Dom.

(** [classList.add], [classList.remove] and [classList.contains] on the
    ordered token set of an element. *)
Definition classList_add (cls : js_string) (l : list js_string)
  : list js_string :=
  if decide (cls ∈ l) then l else l ++ [cls].

Definition classList_remove (cls : js_string) (l : list js_string)
  : list js_string :=
  filter (λ c, c ≠ cls) l.

Definition classList_contains (cls : js_string) (l : list js_string) : bool :=
  bool_decide (cls ∈ l).

(** An [input] or [textarea] of the contact form.  [defaultValue] is the
    value given in the markup, which [form.reset()] restores. *)
Record Field : Type := mkField {
  name : js_string;
  value : js_string;
  defaultValue : js_string;
  classList : list js_string
}.

(** The elements that [document.getElementById] finds under the ids
    [<name>-error], as a map from id to [textContent].  An id that is
    not in the map has no element. *)
Abbreviation ErrorElements := (gmap js_string js_string).

(** The element with id [form-status]. *)
Record StatusElement : Type := mkStatus {
  statusText : js_string;        (* textContent *)
  className : js_string
}.

(** The element [.form-submit]. *)
Record Button : Type := mkButton {
  buttonClassList : list js_string;
  disabled : bool;
  textContent : js_string
}.

(** The callbacks that the controller hands to [setTimeout]. *)
Inductive TimerCallback : Type :=
| HideFormStatus.   (* [() => { statusElement.className = 'form-status'; }] *)

(** A pending timer: the time at which it is due, in milliseconds, and
    its callback. *)
Definition Timer : Type := (N * TimerCallback)%type.

(** What the controller reads and writes.  [now] is the clock in
    milliseconds; [suspended] holds, for every call of
    [handleFormSubmit] that is waiting at its [await], the local
    [originalText] it captured. *)
Record Page : Type := mkPage {
  formInputs : list Field;
  errorElements : ErrorElements;
  statusElement : StatusElement;
  submitButton : Button;
  now : N;
  timers : list Timer;
  suspended : list js_string
}.

End Dom.
Export Dom.

(* ===================================================================== *)
(** ** [isValidEmail] *)
(* ===================================================================== *)

(** The class [[^\s@]]. *)
Definition notSpaceOrAt (c : code_unit) : bool :=
  negb (isWhiteSpace c || (c =? 64)).

(** [const emailRegex = /^[^\s@]+@[^\s@]+\.[^\s@]+$/;] (the anchors are
    in [test_anchored]). *)
Definition emailRegex : regex :=
  Seq (Plus (Class notSpaceOrAt))
   (Seq (Chr 64)
    (Seq (Plus (Class notSpaceOrAt))
     (Seq (Chr 46)
      (Plus (Class notSpaceOrAt))))).

Definition isValidEmail (email : js_string) : bool :=
  test_anchored emailRegex email.

(** The shape [local@domain.tld] in the words of the specification: three
    non-empty parts free of white space and of [@], joined by [@] and by
    a dot. *)
Definition emailPart (s : js_string) : Prop :=
  s <> [] /\ Forall (fun c => notSpaceOrAt c = true) s.

Definition emailShape (s : js_string) : Prop :=
  exists loc dom tld,
    s = loc ++ lit "@" ++ dom ++ lit "." ++ tld /\
    emailPart loc /\ emailPart dom /\ emailPart tld.

(* ===================================================================== *)
(** ** The controller *)
(* ===================================================================== *)

(** What the script takes from the JavaScript engine it runs on: the
    text that [Function.prototype.toString] returns for a built-in
    function, which ECMAScript leaves to the implementation. *)
Class Engine : Type := {
  nativeFunctionSource : js_string -> js_string
}.

(** The rendering common to V8 and JavaScriptCore. *)
Definition sampleEngine : Engine :=
  {| nativeFunctionSource fname :=
       lit "function " ++ fname ++ lit "() { [native code] }" |}.

(** The result of the [await] in [handleFormSubmit]: the promise of
    [simulateFormSubmission] is fulfilled, or it is rejected with a
    reason, which the [catch] clause binds to [error].  An exception
    thrown by the awaited call itself reaches the same clause.  When the
    promise settles and how (in the source after 2000 ms, by a random
    draw) is left to the environment. *)
Inductive AwaitResult : Type :=
| Fulfilled
| Rejected (error : jsval).

(** [new Error('Simulated error')], the reason with which the promise of
    [simulateFormSubmission] is rejected. *)
Definition simulatedError : jsval := VError (lit "Simulated error").

Section Controller.

Context `{Engine}.

(** ToString, as a template literal applies it to a substitution. *)
Definition ToString (v : jsval) : js_string :=
  match v with
  | VUndefined => lit "undefined"
  | VString s => s
  | VBuiltin fname => nativeFunctionSource fname
  | VObjectPrototype => lit "[object Object]"
  | VError message =>
      if truthy message then lit "Error: " ++ message else lit "Error"
  end.

Definition labels : list (js_string * jsval) :=
  [ (lit "name", VString (lit "Name"));
    (lit "email", VString (lit "Email"));
    (lit "message", VString (lit "Message")) ].

Definition getFieldLabel (fieldName : js_string) : jsval :=
  logicalOr (Get labels fieldName) (VString fieldName).

Definition withClassList (field : Field) (l : list js_string) : Field :=
  mkField (name field) (value field) (defaultValue field) l.

(** [const errorElement = document.getElementById(id);
    if (errorElement) { errorElement.textContent = text; }] *)
Definition setErrorText (id text : js_string) (doc : ErrorElements)
  : ErrorElements :=
  match doc !! id with
  | Some _ => <[id := text]> doc
  | None => doc
  end.

Definition showFieldError (field : Field) (message : js_string)
    (doc : ErrorElements) : Field * ErrorElements :=
  (withClassList field (classList_add (lit "error") (classList field)),
   setErrorText (name field ++ lit "-error") message doc).

Definition clearFieldError (field : Field) (doc : ErrorElements)
  : Field * ErrorElements :=
  (withClassList field (classList_remove (lit "error") (classList field)),
   setErrorText (name field ++ lit "-error") [] doc).

Definition validateField (field : Field) (doc : ErrorElements)
  : bool * (Field * ErrorElements) :=
  let value := trim (value field) in
  let fieldName := name field in
  let errorMessage : js_string := [] in
  (* Clear previous errors *)
  let '(field, doc) := clearFieldError field doc in
  (* Required field validation *)
  let errorMessage :=
    if negb (truthy value) then
      ToString (getFieldLabel fieldName) ++ lit " is required."
    else
      (* Specific validation based on field type *)
      if decide (fieldName = lit "email") then
        if negb (isValidEmail value)
        then lit "Please enter a valid email address."
        else errorMessage
      else if decide (fieldName = lit "name") then
        if length_lt value 2
        then lit "Name must be at least 2 characters long."
        else errorMessage
      else if decide (fieldName = lit "message") then
        if length_lt value 10
        then lit "Message must be at least 10 characters long."
        else errorMessage
      else errorMessage in
  if truthy errorMessage then
    (false, showFieldError field errorMessage doc)
  else
    (true, (field, doc)).

(** The loop [formInputs.forEach(input => { if (!validateField(input))
    isValid = false; })] of [handleFormSubmit], started with the current
    [isValid]. *)
Fixpoint validateEach (inputs : list Field) (isValid : bool)
    (doc : ErrorElements) : bool * (list Field * ErrorElements) :=
  match inputs with
  | [] => (isValid, ([], doc))
  | input :: rest =>
      let '(ok, (input, doc)) := validateField input doc in
      let isValid := if negb ok then false else isValid in
      let '(isValid, (rest, doc)) := validateEach rest isValid doc in
      (isValid, (input :: rest, doc))
  end.

(** [let isValid = true; formInputs.forEach(...)]: the validation pass
    that the specification calls [validateAll]. *)
Definition validateAll (inputs : list Field) (doc : ErrorElements)
  : bool * (list Field * ErrorElements) :=
  validateEach inputs true doc.

(** The delay given to [setTimeout] in [showFormStatus], in milliseconds:
    5 seconds. *)
Definition STATUS_DELAY : N := 5000.

Definition showFormStatus (message type : js_string) (p : Page) : Page :=
  mkPage (formInputs p) (errorElements p)
         (mkStatus message (lit "form-status " ++ type))
         (submitButton p) (now p)
         (timers p ++ [(now p + STATUS_DELAY, HideFormStatus)])
         (suspended p).

Definition runCallback (cb : TimerCallback) (p : Page) : Page :=
  match cb with
  | HideFormStatus =>
      mkPage (formInputs p) (errorElements p)
             (mkStatus (statusText (statusElement p)) (lit "form-status"))
             (submitButton p) (now p) (timers p) (suspended p)
  end.

(** [contactForm.reset()]: every control goes back to its default value. *)
Definition formReset (p : Page) : Page :=
  mkPage ((λ f, mkField (name f) (defaultValue f) (defaultValue f) (classList f))
            <$> formInputs p)
         (errorElements p) (statusElement p) (submitButton p)
         (now p) (timers p) (suspended p).

Definition withSubmitButton (p : Page) (b : Button) : Page :=
  mkPage (formInputs p) (errorElements p) (statusElement p) b
         (now p) (timers p) (suspended p).

(** [handleFormSubmit] from its start to its [await]. *)
Definition handleFormSubmit (p : Page) : Page :=
  (* Validate all fields *)
  let '(isValid, (inputs, doc)) := validateAll (formInputs p) (errorElements p) in
  let p := mkPage inputs doc (statusElement p) (submitButton p)
                  (now p) (timers p) (suspended p) in
  if negb isValid then
    showFormStatus (lit "Please correct the errors above.") (lit "error") p
  else
    (* Show loading state *)
    let submitButton := submitButton p in
    let originalText := textContent submitButton in
    let submitButton :=
      mkButton (classList_add (lit "loading") (buttonClassList submitButton))
               true (lit "Sending...") in
    (* await simulateFormSubmission() *)
    mkPage (formInputs p) (errorElements p) (statusElement p) submitButton
           (now p) (timers p) (suspended p ++ [originalText]).

(** [handleFormSubmit] from its [await] to its end: the rest of the
    [try] block or the [catch] clause, then the [finally] clause. *)
Definition handleFormSubmit_settled (originalText : js_string)
    (r : AwaitResult) (p : Page) : Page :=
  let p :=
    match r with
    | Fulfilled =>
        (* Show success message *)
        formReset
          (showFormStatus
             (lit "Thank you! Your message has been sent successfully.")
             (lit "success") p)
    | Rejected error =>
        showFormStatus
          (lit "Sorry, there was an error sending your message. Please try again.")
          (lit "error") p
    end in
  (* Reset button state *)
  let submitButton := submitButton p in
  withSubmitButton p
    (mkButton (classList_remove (lit "loading") (buttonClassList submitButton))
              false originalText).

(* --------------------------------------------------------------------- *)
(** *** The event loop *)
(* --------------------------------------------------------------------- *)

(** What can happen to the page: the listeners that [setupFormValidation]
    and [setupFormSubmission] install, the settling of an awaited
    submission, and the passing of time. *)
Inductive Event : Type :=
| Blur (i : nat)                       (* [blur] on [formInputs[i]] *)
| Input (i : nat) (text : js_string)   (* the user edits [formInputs[i]] *)
| Submit                               (* [submit] on the form *)
| Settle (k : nat) (r : AwaitResult)   (* the [k]-th waiting handler resumes *)
| Elapse (ms : N).                     (* [ms] milliseconds pass *)

Definition withField (p : Page) (i : nat) (fd : Field * ErrorElements) : Page :=
  mkPage (<[i := fd.1]> (formInputs p)) fd.2 (statusElement p)
         (submitButton p) (now p) (timers p) (suspended p).

(** The timers due at time [t], in the order of their registration, and
    the others. *)
Definition dueAt (t : N) (tm : Timer) : bool := tm.1 <=? t.

Definition elapse (ms : N) (p : Page) : Page :=
  let t := now p + ms in
  let due := List.filter (dueAt t) (timers p) in
  let rest := List.filter (λ tm, negb (dueAt t tm)) (timers p) in
  let p := mkPage (formInputs p) (errorElements p) (statusElement p)
                  (submitButton p) t rest (suspended p) in
  fold_left (λ p tm, runCallback tm.2 p) due p.

Definition step (e : Event) (p : Page) : Page :=
  match e with
  | Blur i =>
      match formInputs p !! i with
      | Some input => withField p i (validateField input (errorElements p)).2
      | None => p
      end
  | Input i text =>
      match formInputs p !! i with
      | Some input =>
          let input := mkField (name input) text (defaultValue input)
                               (classList input) in
          withField p i (clearFieldError input (errorElements p))
      | None => p
      end
  | Submit => handleFormSubmit p
  | Settle k r =>
      match suspended p !! k with
      | Some originalText =>
          handleFormSubmit_settled originalText r
            (mkPage (formInputs p) (errorElements p) (statusElement p)
                    (submitButton p) (now p) (timers p)
                    (delete k (suspended p)))
      | None => p
      end
  | Elapse ms => elapse ms p
  end.

Definition run (evs : list Event) (p : Page) : Page :=
  fold_left (λ p e, step e p) evs p.

End Controller.

(* ===================================================================== *)
(** ** The rules in the words of the specification *)
(* ===================================================================== *)

Section Rules.

Context `{Engine}.

(** "<Label> is required." *)
Definition requiredMessage (fieldName : js_string) : js_string :=
  ToString (getFieldLabel fieldName) ++ lit " is required.".

(** The field-specific constraint, as the message of its failure: email
    must have the shape [local@domain.tld], name must be at least 2
    characters, message must be at least 10 characters. *)
Definition fieldConstraint (fieldName v : js_string) : option js_string :=
  if decide (fieldName = lit "email") then
    if isValidEmail v then None
    else Some (lit "Please enter a valid email address.")
  else if decide (fieldName = lit "name") then
    if decide (2 <= length v)%nat then None
    else Some (lit "Name must be at least 2 characters long.")
  else if decide (fieldName = lit "message") then
    if decide (10 <= length v)%nat then None
    else Some (lit "Message must be at least 10 characters long.")
  else None.

(** Rule order: (a) required, (b) the field-specific constraint, only
    if the trimmed value [v] is not empty.  [None] when no rule fails. *)
Definition firstFailingRule (fieldName v : js_string) : option js_string :=
  if decide (v = []) then Some (requiredMessage fieldName)
  else fieldConstraint fieldName v.

(** What the page shows for a field: whether the field carries the class
    [error], and the text of its error element, if it has one. *)
Definition errorShown (field : Field) : bool :=
  classList_contains (lit "error") (classList field).

Definition errorText (field : Field) (doc : ErrorElements) : option js_string :=
  doc !! (name field ++ lit "-error").

(** The text that the rules give for a field: the message of the first
    failing rule, or the empty string. *)
Definition messageOf (field : Field) : js_string :=
  default [] (firstFailingRule (name field) (trim (value field))).

(** The error elements after the fields of [inputs] have been validated
    one after the other. *)
Definition docAfter (inputs : list Field) (doc : ErrorElements)
  : ErrorElements :=
  fold_left (fun d f => (validateField f d).2.2) inputs doc.

(** A field is valid when no rule fails on its trimmed value. *)
Definition fieldValid (field : Field) : bool :=
  bool_decide (firstFailingRule (name field) (trim (value field)) = None).

(** A form is valid when all its fields are. *)
Definition formValid (p : Page) : bool := forallb fieldValid (formInputs p).

(** The busy state of the submit control. *)
Definition busy (p : Page) : bool := disabled (submitButton p).

(** The pages that a sequence of events goes through, the first one
    included. *)
Fixpoint trace (evs : list Event) (p : Page) : list Page :=
  p :: match evs with
       | [] => []
       | e :: evs => trace evs (step e p)
       end.

(** How often a flag goes from [false] to [true], and from [true] to
    [false], along a sequence of observations. *)
Fixpoint risingEdges (l : list bool) : nat :=
  match l with
  | a :: (b :: _) as rest =>
      ((if negb a && b then 1 else 0) + risingEdges rest)%nat
  | _ => 0%nat
  end.

Fixpoint fallingEdges (l : list bool) : nat :=
  match l with
  | a :: (b :: _) as rest =>
      ((if a && negb b then 1 else 0) + fallingEdges rest)%nat
  | _ => 0%nat
  end.

(** The events that neither start nor resume a submission. *)
Definition bystander (e : Event) : bool :=
  match e with
  | Blur _ | Input _ _ | Elapse _ => true
  | Submit | Settle _ _ => false
  end.

(** What last happened to a field: the user edited it, or it was
    validated while it held the value [v]. *)
Inductive Touch : Type :=
| Edited
| Validated (v : js_string).

(** The record of the last touch of every field, by position in
    [formInputs], brought up to date for an event that arrives at the
    page [p]. *)
Definition track (e : Event) (p : Page) (g : gmap nat Touch) : gmap nat Touch :=
  match e with
  | Blur i =>
      match formInputs p !! i with
      | Some input => <[i := Validated (value input)]> g
      | None => g
      end
  | Input i _ =>
      match formInputs p !! i with
      | Some _ => <[i := Edited]> g
      | None => g
      end
  | Submit => map_seq 0 ((fun input => Validated (value input)) <$> formInputs p)
  | Settle _ _ | Elapse _ => g
  end.

Fixpoint lastTouch (evs : list Event) (p : Page) (g : gmap nat Touch)
  : gmap nat Touch :=
  match evs with
  | [] => g
  | e :: evs => lastTouch evs (step e p) (track e p g)
  end.

(** The text of the error element of [field], if the page has one, is
    [text]. *)
Definition errorTextIs (field : Field) (doc : ErrorElements)
    (text : js_string) : Prop :=
  forall t, errorText field doc = Some t -> t = text.

(** The displayed error state of a field is the one of the touch [t]:
    nothing after an edit, and after a validation what the rules give
    for the name of the field and the validated value. *)
Definition touchShown (field : Field) (doc : ErrorElements) (t : Touch)
  : Prop :=
  match t with
  | Edited => errorShown field = false /\ errorTextIs field doc []
  | Validated v =>
      let validated := mkField (name field) v [] [] in
      errorShown field = negb (fieldValid validated) /\
      errorTextIs field doc (messageOf validated)
  end.

(** Every touched field shows the state of its last touch. *)
Definition displayFollowsTouch (p : Page) (g : gmap nat Touch) : Prop :=
  forall i field t,
    formInputs p !! i = Some field -> g !! i = Some t ->
    touchShown field (errorElements p) t.

End Rules.

(* ===================================================================== *)
(** ** A contact form for the examples *)
(* ===================================================================== *)

(** The three fields of the contact form, filled in with valid values,
    each with its error element; no status shown, the submit control
    idle, no timer pending and no submission under way. *)
Definition sampleInputs : list Field :=
  [ mkField (lit "name") (lit "Al") [] [];
    mkField (lit "email") (lit "a@b.c") [] [];
    mkField (lit "message") (lit "Hello, world!") [] [] ].

Definition sampleDoc : ErrorElements :=
  list_to_map [ (lit "name-error", []);
                (lit "email-error", []);
                (lit "message-error", []) ].

Definition samplePage : Page :=
  mkPage sampleInputs sampleDoc
         (mkStatus [] (lit "form-status"))
         (mkButton [lit "form-submit"] false (lit "Send Message"))
         0 [] [].

(** The same form with a name that is too short. *)
Definition shortNamePage : Page :=
  mkPage (<[0%nat := mkField (lit "name") (lit "A") [] []]> sampleInputs)
         sampleDoc
         (mkStatus [] (lit "form-status"))
         (mkButton [lit "form-submit"] false (lit "Send Message"))
         0 [] [].

(** The sample form while a submission is awaited. *)
Definition waitingPage : Page :=
  mkPage sampleInputs sampleDoc
         (mkStatus [] (lit "form-status"))
         (mkButton [lit "form-submit"; lit "loading"] true (lit "Sending..."))
         0 [] [lit "Send Message"].

(** The sample form on a page whose markup gives the name field the
    initial value [Bob]. *)
Definition prefilledPage : Page :=
  mkPage (<[0%nat := mkField (lit "name") (lit "Bob") (lit "Bob") []]>
            sampleInputs)
         sampleDoc
         (mkStatus [] (lit "form-status"))
         (mkButton [lit "form-submit"] false (lit "Send Message"))
         0 [] [].

(* ===================================================================== *)
(** ** Further observations on the form *)
(* ===================================================================== *)

(** The status element is hidden, or it shows one of the three messages
    of the script under the class of its kind. *)
Definition statusKnown (st : StatusElement) : Prop :=
  className st = lit "form-status" \/
  st = mkStatus (lit "Please correct the errors above.")
                (lit "form-status error") \/
  st = mkStatus
         (lit "Sorry, there was an error sending your message. Please try again.")
         (lit "form-status error") \/
  st = mkStatus (lit "Thank you! Your message has been sent successfully.")
                (lit "form-status success").

(** Every pending timer is due after now and at most 5000 milliseconds
    from now. *)
Definition timersFresh (p : Page) : Prop :=
  forall tm, tm ∈ timers p -> now p < tm.1 /\ tm.1 <= now p + 5000.

(** A visible status has a timer pending that will hide it. *)
Definition statusBacked (p : Page) : Prop :=
  className (statusElement p) = lit "form-status" \/ timers p <> [].

(** The names of the own properties of [labels] and of the properties of
    [Object.prototype]. *)
Definition ownLabelNames : list js_string := labels.*1.

Definition inheritedNames : list js_string := ObjectPrototype.*1.

(* ===================================================================== *)
(** ** The navigation menu *)
(* ===================================================================== *)

Module Nav.

(** A node of the document, by identity. *)
Definition Node : Type := nat.

(** [classList.toggle]. *)
Definition classList_toggle (cls : js_string) (l : list js_string)
  : list js_string :=
  if decide (cls ∈ l) then classList_remove cls l else l ++ [cls].

(** String(b) for a boolean, as [setAttribute] applies it. *)
Definition booleanToString (b : bool) : js_string :=
  if b then lit "true" else lit "false".

(** What the navigation code reads and writes.  The first three fields
    are the markup, which the code never changes: the node [.nav-toggle],
    the result of [navMenu.querySelectorAll('a[href]')] in document
    order, and the nodes that [focus()] can focus.  [ariaExpanded] is the
    attribute [aria-expanded] of the toggle ([None] when it is absent);
    [activeElement] is [document.activeElement] ([None] for [null]);
    [resizeTimer] is the variable of [setupResizeHandler] ([None] for
    [undefined]); [navTimers] holds the id and the due time of every
    pending callback of that function. *)
Record NavState : Type := mkNav {
  toggleNode : Node;
  menuLinks : list Node;
  focusable : Node -> bool;
  ariaExpanded : option js_string;
  menuClassList : list js_string;
  bodyOverflow : js_string;
  activeElement : option Node;
  innerWidth : N;
  clock : N;
  navTimers : list (nat * N);
  nextTimerId : nat;
  resizeTimer : option nat
}.

Definition withMenu (s : NavState) (aria : option js_string)
    (classes : list js_string) (overflow : js_string) : NavState :=
  mkNav (toggleNode s) (menuLinks s) (focusable s) aria classes overflow
        (activeElement s) (innerWidth s) (clock s) (navTimers s)
        (nextTimerId s) (resizeTimer s).

Definition toggleMobileMenu (s : NavState) : NavState :=
  let isExpanded := bool_decide (ariaExpanded s = Some (lit "true")) in
  withMenu s
    (Some (booleanToString (negb isExpanded)))
    (classList_toggle (lit "active") (menuClassList s))
    (* Prevent body scroll when menu is open *)
    (if negb isExpanded then lit "hidden" else []).

Definition closeMobileMenu (s : NavState) : NavState :=
  withMenu s (Some (lit "false"))
    (classList_remove (lit "active") (menuClassList s)) [].

(** [node.focus()]: nothing happens when the node cannot be focused. *)
Definition focus (n : Node) (s : NavState) : NavState :=
  if focusable s n then
    mkNav (toggleNode s) (menuLinks s) (focusable s) (ariaExpanded s)
          (menuClassList s) (bodyOverflow s) (Some n) (innerWidth s)
          (clock s) (navTimers s) (nextTimerId s) (resizeTimer s)
  else s.

(** [document.activeElement === element], where the left side is a node
    or [null] and the right side a node or [undefined]. *)
Definition sameNode (active element : option Node) : bool :=
  match active, element with
  | Some a, Some b => bool_decide (a = b)
  | _, _ => false
  end.

(** [handleTabNavigation(e)]: the flag says whether [e.preventDefault()]
    was called.  The branch that focuses an element is only reached when
    the element exists. *)
Definition handleTabNavigation (shiftKey : bool) (s : NavState)
  : bool * NavState :=
  let focusableElements := menuLinks s in
  let firstElement := focusableElements !! 0%nat in
  let lastElement := last focusableElements in
  if shiftKey then
    (* Shift + Tab *)
    if sameNode (activeElement s) firstElement then
      (true, from_option (fun n => focus n s) s lastElement)
    else (false, s)
  else
    (* Tab *)
    if sameNode (activeElement s) lastElement then
      (true, from_option (fun n => focus n s) s firstElement)
    else (false, s).

(** Where a click lands.  The toggle and the nav links are taken not to
    contain one another; a nav link, like any other target, may be
    inside or outside of the menu. *)
Inductive ClickTarget : Type :=
| OnToggle
| OnNavLink (inMenu : bool)
| Elsewhere (inMenu : bool).

(** The listener of [document] for [click]. *)
Definition documentClick (t : ClickTarget) (s : NavState) : NavState :=
  let inToggle := match t with OnToggle => true | _ => false end in
  let inMenu :=
    match t with
    | OnToggle => false
    | OnNavLink m | Elsewhere m => m
    end in
  if negb inToggle && negb inMenu then closeMobileMenu s else s.

(** The callback of the timer of [setupResizeHandler]. *)
Definition resizeCallback (s : NavState) : NavState :=
  (* Close mobile menu on resize to desktop *)
  if (768 <=? innerWidth s) &&
     classList_contains (lit "active") (menuClassList s)
  then closeMobileMenu s else s.

(** [clearTimeout(id)]: a missing or spent id is ignored. *)
Definition clearTimeout (id : option nat) (timers : list (nat * N))
  : list (nat * N) :=
  match id with
  | Some i => List.filter (fun tm => negb (Nat.eqb tm.1 i)) timers
  | None => timers
  end.

(** The listener of [window] for [resize], the window being [width]
    wide after the resize. *)
Definition handleResize (width : N) (s : NavState) : NavState :=
  let timers := clearTimeout (resizeTimer s) (navTimers s) in
  mkNav (toggleNode s) (menuLinks s) (focusable s) (ariaExpanded s)
        (menuClassList s) (bodyOverflow s) (activeElement s) width
        (clock s) (timers ++ [(nextTimerId s, clock s + 250)])
        (S (nextTimerId s)) (Some (nextTimerId s)).

Definition navDue (t : N) (tm : nat * N) : bool := tm.2 <=? t.

Definition navElapse (ms : N) (s : NavState) : NavState :=
  let t := clock s + ms in
  let due := List.filter (navDue t) (navTimers s) in
  let rest := List.filter (fun tm => negb (navDue t tm)) (navTimers s) in
  let s := mkNav (toggleNode s) (menuLinks s) (focusable s) (ariaExpanded s)
                 (menuClassList s) (bodyOverflow s) (activeElement s)
                 (innerWidth s) t rest (nextTimerId s) (resizeTimer s) in
  fold_left (fun s _ => resizeCallback s) due s.

(** What can happen to the navigation: a click; a key pressed, with the
    position of its target and the node that the default action of the
    browser would focus, if it moves the focus; the user moving the
    focus; a resize of the window; the passing of time. *)
Inductive NavEvent : Type :=
| Click (t : ClickTarget)
| KeyDown (key : js_string) (shiftKey : bool) (inMenu : bool)
          (next : option Node)
| FocusMoved (n : option Node)
| Resize (width : N)
| Wait (ms : N).

Definition withActive (s : NavState) (n : option Node) : NavState :=
  mkNav (toggleNode s) (menuLinks s) (focusable s) (ariaExpanded s)
        (menuClassList s) (bodyOverflow s) n (innerWidth s)
        (clock s) (navTimers s) (nextTimerId s) (resizeTimer s).

(** The listeners run in the order of propagation: those of the target's
    ancestors in the menu first, the one of [document] last. *)
Definition navStep (e : NavEvent) (s : NavState) : NavState :=
  match e with
  | Click t =>
      let s :=
        match t with
        | OnToggle => toggleMobileMenu s
        | OnNavLink _ => closeMobileMenu s
        | Elsewhere _ => s
        end in
      documentClick t s
  | KeyDown key shiftKey inMenu next =>
      (* the listener of [navMenu] *)
      let '(prevented, s) :=
        if inMenu && bool_decide (key = lit "Tab")
        then handleTabNavigation shiftKey s
        else (false, s) in
      (* the listener of [document] *)
      let s :=
        if bool_decide (key = lit "Escape") &&
           classList_contains (lit "active") (menuClassList s)
        then focus (toggleNode s) (closeMobileMenu s)
        else s in
      (* the default action *)
      if prevented then s
      else match next with Some n => withActive s (Some n) | None => s end
  | FocusMoved n => withActive s n
  | Resize width => handleResize width s
  | Wait ms => navElapse ms s
  end.

Definition navRun (evs : list NavEvent) (s : NavState) : NavState :=
  fold_left (fun s e => navStep e s) evs s.

(** The menu is open when it carries the class [active]. *)
Definition menuOpen (s : NavState) : bool :=
  classList_contains (lit "active") (menuClassList s).

(** The three marks of the state of the menu agree. *)
Definition inSync (s : NavState) : Prop :=
  ariaExpanded s = Some (booleanToString (menuOpen s)) /\
  bodyOverflow s = (if menuOpen s then lit "hidden" else []).

(** At most one callback is pending; it is the one that [resizeTimer]
    names, and it is due within the next 250 milliseconds. *)
Definition debounced (s : NavState) : Prop :=
  (length (navTimers s) <= 1)%nat /\
  (forall tm, tm ∈ navTimers s ->
     resizeTimer s = Some tm.1 /\ clock s < tm.2 /\ tm.2 <= clock s + 250).

(** What [toggleMobileMenu] reads as the state of the menu. *)
Definition expanded (s : NavState) : bool :=
  bool_decide (ariaExpanded s = Some (lit "true")).

(** The state of the menu, as far as a user or a style sheet can tell:
    the attribute, the overflow of the body, and which classes the menu
    carries. *)
Definition sameMenu (s1 s2 : NavState) : Prop :=
  ariaExpanded s1 = ariaExpanded s2 /\
  bodyOverflow s1 = bodyOverflow s2 /\
  (forall c, c ∈ menuClassList s1 <-> c ∈ menuClassList s2).

(** The markup of a page: toggle collapsed, menu closed, three links. *)
Definition sampleNav : NavState :=
  mkNav 0%nat [1%nat; 2%nat; 3%nat] (fun _ => true)
        (Some (lit "false")) [lit "nav-menu"] [] None 375 0 [] 1%nat None.

End Nav.
Export Nav.

(* ===================================================================== *)
(** ** The scroll animations *)
(* ===================================================================== *)

(** An entry handed to the callback of the [IntersectionObserver]: the
    position of its target among the observed [.feature-card] elements,
    and [isIntersecting]. *)
Definition ObserverEntry : Type := (nat * bool)%type.

(** The callback of the observer, on the class lists of the observed
    cards. *)
Definition observerCallback (entries : list ObserverEntry)
    (cards : list (list js_string)) : list (list js_string) :=
  fold_left
    (fun cards (entry : ObserverEntry) =>
       if entry.2 then
         match cards !! entry.1 with
         | Some classes =>
             <[entry.1 := classList_add (lit "animate-in") classes]> cards
         | None => cards
         end
       else cards)
    entries cards.

(* ===================================================================== *)
(** ** Strings and patterns: facts *)
(* ===================================================================== *)

Section RegexFacts.

Implicit Types (r : regex) (s : js_string) (c : code_unit).

Lemma Lang_Seq_inv r1 r2 s :
  Lang (Seq r1 r2) s <->
  exists s1 s2, s = s1 ++ s2 /\ Lang r1 s1 /\ Lang r2 s2.
Proof.
  split.
  - inversion 1; subst; eauto.
  - intros (s1 & s2 & -> & H1 & H2). by constructor.
Qed.

Lemma Lang_Alt_inv r1 r2 s : Lang (Alt r1 r2) s <-> Lang r1 s \/ Lang r2 s.
Proof.
  split.
  - inversion 1; subst; auto.
  - intros [?|?]; [by apply LAltL | by apply LAltR].
Qed.

Lemma Lang_Class_inv p s :
  Lang (Class p) s <-> exists c, s = [c] /\ p c = true.
Proof.
  split.
  - inversion 1; subst; eauto.
  - intros (c & -> & Hc). by constructor.
Qed.

Lemma Lang_Void_inv s : ~ Lang Void s.
Proof. inversion 1. Qed.

Lemma Lang_Eps_inv s : Lang Eps s <-> s = [].
Proof. split; [by inversion 1 | intros ->; constructor]. Qed.

(** A non-empty word of [r*] starts with a non-empty word of [r]. *)
Lemma Lang_Star_cons r c s :
  Lang (Star r) (c :: s) ->
  exists s1 s2, s = s1 ++ s2 /\ Lang r (c :: s1) /\ Lang (Star r) s2.
Proof.
  intros HL.
  remember (Star r) as r' eqn:Er.
  remember (c :: s) as w eqn:Ew.
  induction HL as [| | | | | |r0 s1 s2 H1 _ H2 IH2]; try discriminate.
  injection Er as ->.
  destruct s1 as [|c' s1]; simpl in Ew.
  - by apply IH2.
  - injection Ew as -> <-. eauto.
Qed.

Lemma nullable_Lang r : nullable r = true <-> Lang r [].
Proof.
  induction r as [| |p|r1 IH1 r2 IH2|r1 IH1 r2 IH2|r IH]; simpl.
  - split; [done | by intros ?%Lang_Void_inv].
  - split; [constructor | done].
  - split; [done | intros (c & ? & _)%Lang_Class_inv; done].
  - rewrite andb_true_iff, IH1, IH2, Lang_Seq_inv. split.
    + intros [? ?]. by exists [], [].
    + intros (s1 & s2 & Hs & ? & ?).
      symmetry in Hs. apply app_eq_nil in Hs as [-> ->]. done.
  - by rewrite orb_true_iff, IH1, IH2, Lang_Alt_inv.
  - split; [constructor | done].
Qed.

Lemma deriv_Lang c r s : Lang (deriv c r) s <-> Lang r (c :: s).
Proof.
  revert s.
  induction r as [| |p|r1 IH1 r2 IH2|r1 IH1 r2 IH2|r IH]; intros s; simpl.
  - split; by intros ?%Lang_Void_inv.
  - split; [by intros ?%Lang_Void_inv | inversion 1].
  - rewrite Lang_Class_inv. destruct (p c) eqn:Hp.
    + rewrite Lang_Eps_inv. split.
      * intros ->. eauto.
      * by intros (c' & [= _ ->] & _).
    + split; [by intros ?%Lang_Void_inv |].
      intros (c' & [= -> _] & ?). congruence.
  - assert (Hseq : Lang (Seq (deriv c r1) r2) s <->
                   exists s1 s2, s = s1 ++ s2 /\ Lang r1 (c :: s1) /\ Lang r2 s2).
    { rewrite Lang_Seq_inv. by setoid_rewrite IH1. }
    rewrite (Lang_Seq_inv r1 r2).
    destruct (nullable r1) eqn:Hn.
    + rewrite Lang_Alt_inv, Hseq, IH2. split.
      * intros [(s1 & s2 & -> & ? & ?)|?].
        -- by exists (c :: s1), s2.
        -- exists [], (c :: s). by rewrite <- nullable_Lang.
      * intros (s1 & s2 & Hs & H1 & H2). destruct s1 as [|c' s1]; simpl in Hs.
        -- right. by subst s2.
        -- injection Hs as <- ->. left. eauto.
    + rewrite Hseq. split.
      * intros (s1 & s2 & -> & ? & ?). by exists (c :: s1), s2.
      * intros (s1 & s2 & Hs & H1 & H2). destruct s1 as [|c' s1]; simpl in Hs.
        -- apply nullable_Lang in H1. congruence.
        -- injection Hs as <- ->. eauto.
  - by rewrite !Lang_Alt_inv, IH1, IH2.
  - rewrite Lang_Seq_inv. setoid_rewrite IH. split.
    + intros (s1 & s2 & -> & ? & ?).
      by apply (LStarCons r (c :: s1) s2).
    + by intros ?%Lang_Star_cons.
Qed.

(** The matcher decides the language of the pattern. *)
Lemma test_anchored_Lang r s : test_anchored r s = true <-> Lang r s.
Proof.
  revert r. induction s as [|c s IH]; intros r; simpl.
  - apply nullable_Lang.
  - by rewrite IH, deriv_Lang.
Qed.

Lemma Lang_Star_Class p s :
  Lang (Star (Class p)) s <-> Forall (fun c => p c = true) s.
Proof.
  split.
  - induction s as [|c s IH]; [constructor |].
    intros (s1 & s2 & -> & (c' & Hs & Hc)%Lang_Class_inv & ?)%Lang_Star_cons.
    injection Hs as <- ->. constructor; auto.
  - induction 1 as [|c s Hc _ IH]; [constructor |].
    apply (LStarCons _ [c] s); [by constructor | done].
Qed.

Lemma Lang_Plus_Class p s :
  Lang (Plus (Class p)) s <-> s <> [] /\ Forall (fun c => p c = true) s.
Proof.
  unfold Plus. rewrite Lang_Seq_inv. split.
  - intros (s1 & s2 & -> & (c & -> & Hc)%Lang_Class_inv & Hs%Lang_Star_Class).
    split; [done | by constructor].
  - intros [Hne Hall]. destruct Hall as [|c s Hc Hs]; [done |].
    exists [c], s. split; [done |]. split; [by constructor |].
    by apply Lang_Star_Class.
Qed.

Lemma Lang_Chr c s : Lang (Chr c) s <-> s = [c].
Proof.
  unfold Chr. rewrite Lang_Class_inv. split.
  - intros (c' & -> & ->%N.eqb_eq). done.
  - intros ->. exists c. by rewrite N.eqb_refl.
Qed.

(** [isValidEmail] accepts exactly the strings of the shape
    [local@domain.tld]. *)
Lemma isValidEmail_shape s : isValidEmail s = true <-> emailShape s.
Proof.
  unfold isValidEmail, emailShape, emailRegex, emailPart.
  rewrite test_anchored_Lang, Lang_Seq_inv. split.
  - intros (loc & s1 & -> & Hloc%Lang_Plus_Class & H1).
    apply Lang_Seq_inv in H1 as (a & s2 & -> & ->%Lang_Chr & H2).
    apply Lang_Seq_inv in H2 as (dom & s3 & -> & Hdom%Lang_Plus_Class & H3).
    apply Lang_Seq_inv in H3 as (d & tld & -> & ->%Lang_Chr & Htld%Lang_Plus_Class).
    by exists loc, dom, tld.
  - intros (loc & dom & tld & -> & Hloc & Hdom & Htld).
    exists loc, (lit "@" ++ dom ++ lit "." ++ tld).
    split; [done |]. split; [by apply Lang_Plus_Class |].
    apply (LSeq _ _ [64] _); [by apply Lang_Chr |].
    apply LSeq; [by apply Lang_Plus_Class |].
    apply (LSeq _ _ [46] _); [by apply Lang_Chr | by apply Lang_Plus_Class].
Qed.

End RegexFacts.

(* ===================================================================== *)
(** ** [trim], class lists and error elements: facts *)
(* ===================================================================== *)

Section DomFacts.

Implicit Types (s t id : js_string) (l : list js_string) (doc : ErrorElements).

Lemma truthy_app_r s t : truthy t = true -> truthy (s ++ t) = true.
Proof. destruct s, t; simpl; congruence. Qed.

Lemma trimStart_nil_iff s :
  trimStart s = [] <-> Forall (fun c => isWhiteSpace c = true) s.
Proof.
  induction s as [|c s IH]; simpl.
  - split; [constructor | done].
  - destruct (isWhiteSpace c) eqn:Hc.
    + rewrite IH. split; [by constructor | by inversion 1].
    + split; [done | inversion 1; congruence].
Qed.

Lemma trimStart_head s c t : trimStart s = c :: t -> isWhiteSpace c = false.
Proof.
  induction s as [|c' s IH]; simpl; [done |].
  destruct (isWhiteSpace c') eqn:Hc; [done |]. by intros [= <- _].
Qed.

(** Only white space trims to the empty string. *)
Lemma trim_nil_iff s :
  trim s = [] <-> Forall (fun c => isWhiteSpace c = true) s.
Proof.
  unfold trim, trimEnd. rewrite <- trimStart_nil_iff. split.
  - intros Hr. apply (f_equal (@rev _)) in Hr. rewrite rev_involutive in Hr.
    simpl in Hr. apply trimStart_nil_iff in Hr.
    destruct (trimStart s) as [|c t] eqn:Hs; [done |].
    apply trimStart_head in Hs.
    apply Forall_rev in Hr. rewrite rev_involutive in Hr.
    inversion Hr; congruence.
  - by intros ->.
Qed.

Lemma elem_of_classList_add cls l c :
  c ∈ classList_add cls l <-> c = cls \/ c ∈ l.
Proof.
  unfold classList_add. case_decide.
  - split; [auto | by intros [->|?]].
  - rewrite elem_of_app, list_elem_of_singleton. tauto.
Qed.

Lemma elem_of_classList_remove cls l c :
  c ∈ classList_remove cls l <-> c <> cls /\ c ∈ l.
Proof. unfold classList_remove. by rewrite list_elem_of_filter. Qed.

Lemma classList_contains_add cls l :
  classList_contains cls (classList_add cls l) = true.
Proof.
  unfold classList_contains. apply bool_decide_eq_true.
  apply elem_of_classList_add. by left.
Qed.

Lemma classList_contains_remove cls l :
  classList_contains cls (classList_remove cls l) = false.
Proof.
  unfold classList_contains. apply bool_decide_eq_false.
  rewrite elem_of_classList_remove. tauto.
Qed.

Lemma lookup_setErrorText_eq id t doc :
  setErrorText id t doc !! id = (fun _ => t) <$> doc !! id.
Proof.
  unfold setErrorText. destruct (doc !! id) eqn:Hd; simpl.
  - by rewrite lookup_insert_eq.
  - by rewrite Hd.
Qed.

Lemma lookup_setErrorText_ne id id' t doc :
  id <> id' -> setErrorText id t doc !! id' = doc !! id'.
Proof.
  intros Hne. unfold setErrorText. destruct (doc !! id); [|done].
  by rewrite lookup_insert_ne.
Qed.

Lemma setErrorText_twice id t1 t2 doc :
  setErrorText id t2 (setErrorText id t1 doc) = setErrorText id t2 doc.
Proof.
  apply map_eq. intros j. destruct (decide (id = j)) as [<-|Hne].
  - rewrite !lookup_setErrorText_eq. by destruct (doc !! id).
  - by rewrite !lookup_setErrorText_ne.
Qed.

(** The ids of two fields coincide only if their names do. *)
Lemma errorId_inj s t : s ++ lit "-error" = t ++ lit "-error" -> s = t.
Proof. apply app_inv_tail. Qed.

End DomFacts.

(* ===================================================================== *)
(** ** [validateField] *)
(* ===================================================================== *)

Section FieldValidation.

Context `{Engine}.

Implicit Types (field : Field) (doc : ErrorElements) (message : js_string).

Lemma requiredMessage_truthy fieldName :
  truthy (requiredMessage fieldName) = true.
Proof. by apply truthy_app_r. Qed.

Lemma length_lt_decide (v : js_string) n :
  length_lt v n = negb (bool_decide (n <= length v)%nat).
Proof.
  unfold length_lt. destruct (Nat.ltb_spec (length v) n); symmetry.
  - rewrite bool_decide_eq_false_2; [done | lia].
  - rewrite bool_decide_eq_true_2; [done | lia].
Qed.

(** The source computes the message of the first failing rule and shows
    it, or leaves the field cleared. *)
Lemma validateField_unfold field doc :
  validateField field doc =
  match firstFailingRule (name field) (trim (value field)) with
  | Some message =>
      (false, showFieldError (clearFieldError field doc).1 message
                             (clearFieldError field doc).2)
  | None => (true, clearFieldError field doc)
  end.
Proof.
  unfold validateField, firstFailingRule, fieldConstraint, clearFieldError.
  cbv beta iota zeta.
  destruct (trim (value field)) as [|c v] eqn:Hv.
  - change (truthy []) with false. cbv beta iota delta [negb].
    fold (requiredMessage (name field)).
    by rewrite requiredMessage_truthy.
  - change (truthy (c :: v)) with true. cbv beta iota delta [negb].
    rewrite !length_lt_decide.
    repeat case_decide; try done;
      by destruct (isValidEmail (c :: v)).
Qed.

Lemma validateField_verdict field doc :
  (validateField field doc).1 = fieldValid field.
Proof.
  rewrite validateField_unfold. unfold fieldValid.
  by destruct (firstFailingRule _ _).
Qed.

Lemma validateField_doc field doc :
  (validateField field doc).2.2 =
  setErrorText (name field ++ lit "-error") (messageOf field) doc.
Proof.
  rewrite validateField_unfold. unfold messageOf.
  destruct (firstFailingRule _ _); simpl; [|done].
  by rewrite setErrorText_twice.
Qed.

Lemma validateField_field field doc :
  (validateField field doc).2.1 =
  withClassList field
    (if fieldValid field
     then classList_remove (lit "error") (classList field)
     else classList_add (lit "error")
            (classList_remove (lit "error") (classList field))).
Proof.
  rewrite validateField_unfold. unfold fieldValid.
  by destruct (firstFailingRule _ _).
Qed.

Lemma validateField_name field doc :
  name (validateField field doc).2.1 = name field.
Proof. by rewrite validateField_field. Qed.

Lemma validateField_value field doc :
  value (validateField field doc).2.1 = value field.
Proof. by rewrite validateField_field. Qed.

Lemma validateField_errorShown field doc :
  errorShown (validateField field doc).2.1 = negb (fieldValid field).
Proof.
  rewrite validateField_field. unfold errorShown. simpl.
  destruct (fieldValid field); simpl.
  - apply classList_contains_remove.
  - apply classList_contains_add.
Qed.

Lemma validateField_errorText field doc :
  errorText (validateField field doc).2.1 (validateField field doc).2.2 =
  (fun _ => messageOf field) <$> errorText field doc.
Proof.
  unfold errorText. rewrite validateField_name, validateField_doc.
  apply lookup_setErrorText_eq.
Qed.

Lemma validateField_other_classes field doc c :
  c <> lit "error" ->
  c ∈ classList (validateField field doc).2.1 <-> c ∈ classList field.
Proof.
  intros Hc. rewrite validateField_field. simpl.
  destruct (fieldValid field);
    rewrite ?elem_of_classList_add, elem_of_classList_remove; tauto.
Qed.

Lemma validateField_other_ids field doc id :
  id <> name field ++ lit "-error" ->
  (validateField field doc).2.2 !! id = doc !! id.
Proof.
  intros Hid. rewrite validateField_doc. by apply lookup_setErrorText_ne.
Qed.

(** C1.  [validateField] trims the value first.  A value that is empty
    after trimming fails with "<Label> is required.", whatever the field.
    Only a non-empty trimmed value is checked against the constraint of
    its field (email: the shape [local@domain.tld]; name: at least 2
    characters; message: at least 10).  When a rule fails the call
    returns [false], marks the field and leaves exactly that rule's
    message in the field's error element; otherwise it returns [true],
    and the mark and any earlier message are gone.  Nothing else about
    the field or the other error elements changes. *)
Theorem validateField_first_failing_rule field doc :
  let v := trim (value field) in
  let r := validateField field doc in
  let shows message :=
    errorText r.2.1 r.2.2 = (fun _ => message) <$> errorText field doc in
  match v with
  | [] =>
      r.1 = false /\ errorShown r.2.1 = true /\
      shows (ToString (getFieldLabel (name field)) ++ lit " is required.")
  | _ :: _ =>
      match fieldConstraint (name field) v with
      | Some message =>
          r.1 = false /\ errorShown r.2.1 = true /\ shows message
      | None =>
          r.1 = true /\ errorShown r.2.1 = false /\ shows []
      end
  end /\
  name r.2.1 = name field /\ value r.2.1 = value field /\
  defaultValue r.2.1 = defaultValue field /\
  (forall c, c <> lit "error" -> c ∈ classList r.2.1 <-> c ∈ classList field) /\
  (forall id, id <> name field ++ lit "-error" -> r.2.2 !! id = doc !! id).
Proof.
  intros v r shows. subst shows r. simpl.
  rewrite validateField_verdict, validateField_errorShown,
    validateField_errorText.
  split.
  - unfold fieldValid, messageOf, firstFailingRule. fold v.
    destruct v as [|c v']; simpl; [done |].
    by destruct (fieldConstraint _ _).
  - split; [apply validateField_name |].
    split; [apply validateField_value |].
    split; [by rewrite validateField_field |].
    split; [intros; by apply validateField_other_classes |].
    intros; by apply validateField_other_ids.
Qed.

(** C5.  For the email field, the value [a@b.c] is valid and the value
    [not-an-email] is invalid and leaves the email-format message; in
    general an email value that is not empty after trimming is valid
    exactly when it has the shape [local@domain.tld]. *)
Theorem validateField_email :
  (forall dv cls doc,
     (validateField (mkField (lit "email") (lit "a@b.c") dv cls) doc).1 = true) /\
  (forall dv cls doc,
     let field := mkField (lit "email") (lit "not-an-email") dv cls in
     let r := validateField field doc in
     r.1 = false /\ errorShown r.2.1 = true /\
     errorText r.2.1 r.2.2 =
       (fun _ => lit "Please enter a valid email address.")
         <$> errorText field doc) /\
  (forall field doc,
     name field = lit "email" -> trim (value field) <> [] ->
     ((validateField field doc).1 = true <->
      emailShape (trim (value field)))).
Proof.
  split; [|split].
  - intros. by rewrite validateField_verdict.
  - intros dv cls doc field r. subst r.
    rewrite validateField_verdict, validateField_errorShown,
      validateField_errorText.
    done.
  - intros field doc Hname Hv.
    rewrite validateField_verdict, <- isValidEmail_shape.
    unfold fieldValid, firstFailingRule, fieldConstraint.
    rewrite Hname. repeat case_decide; try done.
    by destruct (isValidEmail _).
Qed.

(** A value of white space only fails the required rule, whatever the
    field. *)
Lemma validateField_white_space field doc :
  Forall (fun c => isWhiteSpace c = true) (value field) ->
  (validateField field doc).1 = false /\
  messageOf field = requiredMessage (name field).
Proof.
  intros Hws%trim_nil_iff. rewrite validateField_verdict.
  unfold fieldValid, messageOf, firstFailingRule. by rewrite Hws.
Qed.

(** A field that is none of name, email and message has no constraint
    of its own: every value that is not empty after trimming is valid. *)
Lemma validateField_other_field field doc :
  name field <> lit "name" -> name field <> lit "email" ->
  name field <> lit "message" -> trim (value field) <> [] ->
  (validateField field doc).1 = true.
Proof.
  intros Hn He Hm Hv. rewrite validateField_verdict.
  unfold fieldValid, firstFailingRule, fieldConstraint.
  by repeat case_decide.
Qed.

(** The label falls back to the raw field name for every name that is
    neither an own property of [labels] nor a property of
    [Object.prototype]. *)
Lemma getFieldLabel_fallback fieldName :
  assoc labels fieldName = None ->
  assoc ObjectPrototype fieldName = None ->
  ToString (getFieldLabel fieldName) = fieldName.
Proof.
  intros Hown Hproto. unfold getFieldLabel, Get, logicalOr.
  by rewrite Hown, Hproto.
Qed.

(** C10, at the field name [__proto__]: the name is none of name, email
    and message, its value is empty, and the message is not built from
    the raw field name. *)
Theorem validateField_inherited_label :
  let field := mkField (lit "__proto__") [] [] [] in
  let doc : ErrorElements := {[ lit "__proto__-error" := [] ]} in
  let r := validateField field doc in
  r.1 = false /\
  errorText r.2.1 r.2.2 = Some (lit "[object Object] is required.") /\
  lit "[object Object] is required." <> name field ++ lit " is required.".
Proof.
  intros field doc r. subst r.
  rewrite validateField_verdict, validateField_errorText.
  split; [done |]. split; [|done].
  unfold errorText, doc, field. simpl name.
  by rewrite lookup_singleton_eq.
Qed.

End FieldValidation.

(* ===================================================================== *)
(** ** The validation pass of [handleFormSubmit] *)
(* ===================================================================== *)

Section ValidationPass.

Context `{Engine}.

Implicit Types (field f : Field) (inputs : list Field) (doc : ErrorElements).

(** The loop visits every field: its result is the conjunction of all
    verdicts with the starting flag, every field is replaced by its
    validated self, and the error elements go through every call. *)
Lemma validateEach_unfold inputs isValid doc :
  validateEach inputs isValid doc =
  (isValid && forallb fieldValid inputs,
   ((fun f => (validateField f doc).2.1) <$> inputs, docAfter inputs doc)).
Proof.
  revert isValid doc. induction inputs as [|f inputs IH]; intros isValid doc.
  - simpl. by rewrite andb_true_r.
  - cbn [validateEach]. unfold docAfter. rewrite fmap_cons.
    cbn [fold_left forallb].
    pose proof (validateField_verdict f doc) as Hv.
    destruct (validateField f doc) as [ok [f' doc']].
    cbn [fst snd] in *. subst ok.
    rewrite IH. fold (docAfter inputs doc'). f_equal.
    + by destruct (fieldValid f), isValid.
    + f_equal. f_equal.
      apply list_fmap_ext. intros _ g _.
      by rewrite !validateField_field.
Qed.

Lemma docAfter_lookup_other inputs doc id :
  (forall f, f ∈ inputs -> id <> name f ++ lit "-error") ->
  docAfter inputs doc !! id = doc !! id.
Proof.
  revert doc. induction inputs as [|f inputs IH]; intros doc Hid; [done |].
  unfold docAfter. simpl. fold (docAfter inputs (validateField f doc).2.2).
  rewrite IH.
  - apply validateField_other_ids, Hid. by left.
  - intros g Hg. apply Hid. by right.
Qed.

(** With distinct field names, the error element of a field holds after
    the pass what the validation of that field put there. *)
Lemma docAfter_lookup inputs doc i f :
  NoDup (name <$> inputs) ->
  inputs !! i = Some f ->
  docAfter inputs doc !! (name f ++ lit "-error") =
  (validateField f doc).2.2 !! (name f ++ lit "-error").
Proof.
  revert doc i. induction inputs as [|g inputs IH]; intros doc i Hnd Hi.
  - done.
  - rewrite fmap_cons in Hnd. apply NoDup_cons in Hnd as [Hg Hnd].
    unfold docAfter. simpl. fold (docAfter inputs (validateField g doc).2.2).
    destruct i as [|i]; simpl in Hi.
    + injection Hi as ->. apply docAfter_lookup_other.
      intros f' Hf' Heq%errorId_inj. apply Hg. rewrite Heq.
      by apply list_elem_of_fmap_2.
    + rewrite (IH _ i), !validateField_doc by done.
      assert (name g <> name f) as Hne.
      { intros Heq. apply Hg. rewrite Heq.
        apply list_elem_of_fmap_2. by eapply list_elem_of_lookup_2. }
      assert (name g ++ lit "-error" <> name f ++ lit "-error") as Hid.
      { by intros ?%errorId_inj. }
      rewrite !lookup_setErrorText_eq. by rewrite lookup_setErrorText_ne.
Qed.

Lemma forallb_verdict inputs doc :
  forallb (fun f => (validateField f doc).1) inputs = forallb fieldValid inputs.
Proof.
  induction inputs as [|f inputs IH]; simpl; [done |].
  by rewrite validateField_verdict, IH.
Qed.

(** C3.  The validation pass of a submit request calls [validateField]
    on every field of the list, with no short circuit: its result is the
    conjunction of all the verdicts, and afterwards every field, and the
    error element of every field, is as the validation of that field
    alone leaves it. *)
Theorem validateAll_no_short_circuit inputs doc :
  NoDup (name <$> inputs) ->
  let r := validateAll inputs doc in
  r.1 = forallb (fun f => (validateField f doc).1) inputs /\
  length r.2.1 = length inputs /\
  forall i f, inputs !! i = Some f ->
    r.2.1 !! i = Some (validateField f doc).2.1 /\
    errorText f r.2.2 = errorText f (validateField f doc).2.2.
Proof.
  intros Hnd r. subst r. unfold validateAll.
  rewrite validateEach_unfold. simpl.
  split; [|split].
  - symmetry. apply forallb_verdict.
  - by rewrite length_fmap.
  - intros i f Hi. split.
    + by rewrite list_lookup_fmap, Hi.
    + unfold errorText. by eapply docAfter_lookup.
Qed.

End ValidationPass.

(* ===================================================================== *)
(** ** [handleFormSubmit] *)
(* ===================================================================== *)

Section Submission.

Context `{Engine}.

Implicit Types (p q : Page) (evs : list Event) (r : AwaitResult).

(** The fields and the error elements after the validation pass. *)
Abbreviation validatedInputs p :=
  ((fun f => (validateField f (errorElements p)).2.1) <$> formInputs p).

(** The handler up to its [await], by the validity of the form. *)
Lemma handleFormSubmit_unfold p :
  handleFormSubmit p =
  if formValid p then
    mkPage (validatedInputs p) (docAfter (formInputs p) (errorElements p))
           (statusElement p)
           (mkButton (classList_add (lit "loading")
                        (buttonClassList (submitButton p)))
                     true (lit "Sending..."))
           (now p) (timers p) (suspended p ++ [textContent (submitButton p)])
  else
    showFormStatus (lit "Please correct the errors above.") (lit "error")
      (mkPage (validatedInputs p) (docAfter (formInputs p) (errorElements p))
              (statusElement p) (submitButton p)
              (now p) (timers p) (suspended p)).
Proof.
  unfold handleFormSubmit, validateAll. rewrite validateEach_unfold.
  cbv beta iota zeta. rewrite andb_true_l. fold (formValid p).
  by destruct (formValid p).
Qed.

Lemma formValid_false_iff p :
  formValid p = false <-> exists f, f ∈ formInputs p /\ fieldValid f = false.
Proof.
  unfold formValid. induction (formInputs p) as [|g l IH]; simpl.
  - split; [done | intros (f & Hf & _); by apply elem_of_nil in Hf].
  - rewrite andb_false_iff, IH. split.
    + intros [Hg|(f & Hf & Hv)].
      * exists g. split; [by left | done].
      * exists f. split; [by right | done].
    + intros (f & Hf & Hv). apply elem_of_cons in Hf as [->|Hf]; eauto.
Qed.

(** C7.  When at least one field is invalid, a submit request shows the
    message "Please correct the errors above." with the class [error],
    calls no submission action (no handler is left waiting), and leaves
    the submit control as it was, so that nothing stands in the way of
    the next request. *)
Theorem handleFormSubmit_rejected p f :
  f ∈ formInputs p -> fieldValid f = false ->
  let q := step Submit p in
  statusElement q =
    mkStatus (lit "Please correct the errors above.") (lit "form-status error") /\
  suspended q = suspended p /\
  submitButton q = submitButton p /\
  formInputs q = validatedInputs p.
Proof.
  intros Hf Hv q. subst q. simpl step.
  rewrite handleFormSubmit_unfold.
  assert (formValid p = false) as ->.
  { apply formValid_false_iff. eauto. }
  done.
Qed.

(** C9.  The page after a failed submission does not depend on the
    error: for any two errors the whole page is the same, and what it
    shows is the one generic failure message. *)
Theorem handleFormSubmit_error_opaque p k (error1 error2 : jsval) :
  step (Settle k (Rejected error1)) p = step (Settle k (Rejected error2)) p /\
  match suspended p !! k with
  | Some _ =>
      statusElement (step (Settle k (Rejected error1)) p) =
        mkStatus
          (lit "Sorry, there was an error sending your message. Please try again.")
          (lit "form-status error")
  | None => step (Settle k (Rejected error1)) p = p
  end.
Proof.
  simpl. by destruct (suspended p !! k).
Qed.

(** The submit request itself leaves the value of every field alone. *)
Lemma handleFormSubmit_values p :
  value <$> formInputs (handleFormSubmit p) = value <$> formInputs p.
Proof.
  rewrite handleFormSubmit_unfold.
  assert (value <$> validatedInputs p = value <$> formInputs p) as Hv.
  { rewrite <- list_fmap_compose. apply list_fmap_ext.
    intros _ f _. simpl. apply validateField_value. }
  by destruct (formValid p).
Qed.

(** C4, as amended.  A submit request does not change the value of any
    field.  When the submission fails, the fields are left exactly as
    they are; when it succeeds, every field goes back to its default
    value ([contactForm.reset()]), so that all fields are cleared when no
    field has a default value. *)
Theorem handleFormSubmit_field_values p k originalText :
  suspended p !! k = Some originalText ->
  value <$> formInputs (step Submit p) = value <$> formInputs p /\
  (forall error, formInputs (step (Settle k (Rejected error)) p) = formInputs p) /\
  value <$> formInputs (step (Settle k Fulfilled) p)
    = defaultValue <$> formInputs p /\
  (Forall (fun f => defaultValue f = []) (formInputs p) ->
   Forall (fun f => value f = []) (formInputs (step (Settle k Fulfilled) p))).
Proof.
  intros Hk. split; [apply handleFormSubmit_values |].
  simpl. rewrite Hk. simpl. split; [done |]. split.
  - rewrite <- list_fmap_compose. by apply list_fmap_ext.
  - intros Hd. apply Forall_fmap. eapply Forall_impl; [exact Hd |]. done.
Qed.

(** Timer callbacks touch nothing but the status element. *)
Lemma runCallbacks_frame (due : list Timer) p :
  let q := fold_left (fun p tm => runCallback tm.2 p) due p in
  formInputs q = formInputs p /\ errorElements q = errorElements p /\
  submitButton q = submitButton p /\ now q = now p /\
  timers q = timers p /\ suspended q = suspended p.
Proof.
  revert p. induction due as [|[d cb] due IH]; intros p; simpl; [done |].
  destruct (IH (runCallback cb p)) as (-> & -> & -> & -> & -> & ->).
  by destruct cb.
Qed.

(** The events that neither start nor resume a submission leave the
    submit control and the waiting handlers alone. *)
Lemma bystander_frame e p :
  bystander e = true ->
  submitButton (step e p) = submitButton p /\
  suspended (step e p) = suspended p.
Proof.
  destruct e as [i|i text| | |ms]; try done; intros _; simpl.
  - by destruct (formInputs p !! i).
  - by destruct (formInputs p !! i).
  - unfold elapse.
    by destruct (runCallbacks_frame
      (List.filter (dueAt (now p + ms)) (timers p))
      (mkPage (formInputs p) (errorElements p) (statusElement p)
         (submitButton p) (now p + ms)
         (List.filter (fun tm => negb (dueAt (now p + ms) tm)) (timers p))
         (suspended p))) as (_ & _ & -> & _ & _ & ->).
Qed.

Lemma bystanders_frame evs p :
  forallb bystander evs = true ->
  submitButton (run evs p) = submitButton p /\
  suspended (run evs p) = suspended p /\
  busy <$> trace evs p = repeat (busy p) (S (length evs)).
Proof.
  revert p. induction evs as [|e evs IH]; intros p; [done |].
  intros Hall. cbn [forallb] in Hall. apply andb_true_iff in Hall as [He Hevs].
  destruct (bystander_frame e p He) as [Hb Hs].
  destruct (IH (step e p) Hevs) as (IHb & IHs & IHt).
  change (run (e :: evs) p) with (run evs (step e p)).
  change (trace (e :: evs) p) with (p :: trace evs (step e p)).
  rewrite IHb, IHs, Hb, Hs, fmap_cons, IHt.
  split; [done |]. split; [done |].
  unfold busy. by rewrite Hb.
Qed.

Lemma trace_app evs e p :
  trace (evs ++ [e]) p = trace evs p ++ [step e (run evs p)].
Proof.
  revert p. induction evs as [|e' evs IH]; intros p; simpl; [done |].
  f_equal. apply IH.
Qed.

Lemma run_app evs1 evs2 p : run (evs1 ++ evs2) p = run evs2 (run evs1 p).
Proof. unfold run. apply fold_left_app. Qed.

Lemma edges_busy_run n :
  risingEdges (repeat true (S n) ++ [false]) = 0%nat /\
  fallingEdges (repeat true (S n) ++ [false]) = 1%nat.
Proof. induction n as [|n [IHr IHf]]; [done |]. split; [apply IHr | apply IHf]. Qed.

(** C2.  One attempt on a valid form, from a page on which no submission
    is under way: the submit request, then any events that neither start
    nor resume a submission, then the settling of the submission action.
    Along the attempt the submit control enters the busy state exactly
    once and leaves it exactly once; it is disabled and relabelled while
    the action is awaited; and however the action settles, fulfilled or
    rejected with any error, the control ends enabled, with its original
    label and without the class [loading], and no handler is left
    waiting. *)
Theorem handleFormSubmit_busy_once p evs r :
  formValid p = true ->
  busy p = false ->
  suspended p = [] ->
  forallb bystander evs = true ->
  let attempt := Submit :: evs ++ [Settle 0 r] in
  let flags := busy <$> trace attempt p in
  let waiting := run (Submit :: evs) p in
  let final := run attempt p in
  risingEdges flags = 1%nat /\ fallingEdges flags = 1%nat /\
  submitButton waiting =
    mkButton (classList_add (lit "loading") (buttonClassList (submitButton p)))
             true (lit "Sending...") /\
  submitButton final =
    mkButton (classList_remove (lit "loading")
                (classList_add (lit "loading")
                   (buttonClassList (submitButton p))))
             false (textContent (submitButton p)) /\
  suspended final = [].
Proof.
  intros Hvalid Hidle Hnone Hevs attempt flags waiting final.
  assert (Hfinal : final = step (Settle 0 r) waiting).
  { unfold final, attempt. by rewrite app_comm_cons, run_app. }
  assert (Hflags : flags =
            busy p :: (busy <$> trace evs (step Submit p)) ++ [busy final]).
  { unfold flags, attempt.
    change (trace (Submit :: evs ++ [Settle 0 r]) p)
      with (p :: trace (evs ++ [Settle 0 r]) (step Submit p)).
    by rewrite fmap_cons, trace_app, fmap_app, Hfinal. }
  destruct (bystanders_frame evs (step Submit p) Hevs) as (Hb & Hs & Ht).
  change (run evs (step Submit p)) with waiting in Hb, Hs.
  clearbody waiting final flags. clear attempt.
  assert (Hsub : submitButton (step Submit p) =
                 mkButton (classList_add (lit "loading")
                             (buttonClassList (submitButton p)))
                          true (lit "Sending...") /\
                 suspended (step Submit p) = [textContent (submitButton p)]).
  { cbn [step]. rewrite handleFormSubmit_unfold, Hvalid. simpl.
    by rewrite Hnone. }
  destruct Hsub as [Hbtn Hsus].
  rewrite Hbtn in Hb. rewrite Hsus in Hs.
  assert (Hend : submitButton final =
                 mkButton (classList_remove (lit "loading")
                             (classList_add (lit "loading")
                                (buttonClassList (submitButton p))))
                          false (textContent (submitButton p)) /\
                 suspended final = []).
  { subst final. cbn [step]. rewrite Hs. simpl. rewrite Hb. by destruct r. }
  assert (flags = false :: repeat true (S (length evs)) ++ [false]) as ->.
  { rewrite Hflags, Ht, Hidle. unfold busy. by rewrite Hbtn, (proj1 Hend). }
  split; [|split; [|split; [exact Hb | exact Hend]]].
  - change (risingEdges (false :: repeat true (S (length evs)) ++ [false]))
      with (1 + risingEdges (repeat true (S (length evs)) ++ [false]))%nat.
    by rewrite (proj1 (edges_busy_run _)).
  - change (fallingEdges (false :: repeat true (S (length evs)) ++ [false]))
      with (0 + fallingEdges (repeat true (S (length evs)) ++ [false]))%nat.
    by rewrite (proj2 (edges_busy_run _)).
Qed.

End Submission.

(* ===================================================================== *)
(** ** The timer of [showFormStatus] *)
(* ===================================================================== *)

Section StatusTimer.

Context `{Engine}.

Implicit Types (p q : Page) (evs : list Event) (tm : Timer).

Lemma elapse_frame ms p :
  formInputs (elapse ms p) = formInputs p /\
  errorElements (elapse ms p) = errorElements p /\
  now (elapse ms p) = now p + ms /\
  timers (elapse ms p) =
    List.filter (fun tm => negb (dueAt (now p + ms) tm)) (timers p).
Proof.
  unfold elapse.
  by destruct (runCallbacks_frame
    (List.filter (dueAt (now p + ms)) (timers p))
    (mkPage (formInputs p) (errorElements p) (statusElement p)
       (submitButton p) (now p + ms)
       (List.filter (fun tm => negb (dueAt (now p + ms) tm)) (timers p))
       (suspended p))) as (-> & -> & _ & -> & -> & _).
Qed.

(** Only the passing of time moves the clock. *)
Lemma now_step e p :
  now (step e p) = now p + match e with Elapse ms => ms | _ => 0 end.
Proof.
  destruct e as [i|i text| |k r|ms]; cbn [step].
  - destruct (formInputs p !! i); simpl; lia.
  - destruct (formInputs p !! i); simpl; lia.
  - rewrite handleFormSubmit_unfold. destruct (formValid p); simpl; lia.
  - destruct (suspended p !! k); [destruct r|]; simpl; lia.
  - by destruct (elapse_frame ms p) as (_ & _ & -> & _).
Qed.

Lemma now_run_mono evs p : now p <= now (run evs p).
Proof.
  revert p. induction evs as [|e evs IH]; intros p; [simpl; lia |].
  change (run (e :: evs) p) with (run evs (step e p)).
  specialize (IH (step e p)). rewrite now_step in IH. lia.
Qed.

(** No event removes a timer before it is due: nothing in the code
    cancels one. *)
Lemma timers_step e p tm :
  tm ∈ timers p -> now (step e p) < tm.1 -> tm ∈ timers (step e p).
Proof.
  intros Htm. destruct e as [i|i text| |k r|ms]; cbn [step].
  - by destruct (formInputs p !! i).
  - by destruct (formInputs p !! i).
  - intros _. rewrite handleFormSubmit_unfold.
    destruct (formValid p); simpl; [done |]. apply elem_of_app. by left.
  - intros _. destruct (suspended p !! k); [|done].
    destruct r; simpl; apply elem_of_app; by left.
  - destruct (elapse_frame ms p) as (_ & _ & -> & ->). intros Hlt.
    apply list_elem_of_In, filter_In. split; [by apply list_elem_of_In |].
    unfold dueAt. apply negb_true_iff, N.leb_gt. lia.
Qed.

Lemma timers_run evs p tm :
  tm ∈ timers p -> now (run evs p) < tm.1 -> tm ∈ timers (run evs p).
Proof.
  revert p. induction evs as [|e evs IH]; intros p Htm Hlt; [done |].
  change (run (e :: evs) p) with (run evs (step e p)) in *.
  apply IH; [|done]. apply timers_step; [done |].
  pose proof (now_run_mono evs (step e p)). lia.
Qed.

Lemma runCallbacks_hidden (due : list Timer) p :
  className (statusElement p) = lit "form-status" ->
  className (statusElement (fold_left (fun p tm => runCallback tm.2 p) due p))
    = lit "form-status".
Proof.
  revert p. induction due as [|[d cb] due IH]; intros p Hp; [done |].
  simpl. apply IH. by destruct cb.
Qed.

(** When a pending timer of the status element is due, the passing of
    time hides the status. *)
Lemma elapse_hides ms p d :
  (d, HideFormStatus) ∈ timers p -> d <= now p + ms ->
  className (statusElement (elapse ms p)) = lit "form-status".
Proof.
  intros Htm Hd. unfold elapse.
  assert (Hdue : (d, HideFormStatus)
                 ∈ List.filter (dueAt (now p + ms)) (timers p)).
  { apply list_elem_of_In, filter_In. split; [by apply list_elem_of_In |].
    unfold dueAt. by apply N.leb_le. }
  destruct (List.filter (dueAt (now p + ms)) (timers p)) as [|[d' cb] due].
  - by apply elem_of_nil in Hdue.
  - simpl. apply runCallbacks_hidden. by destruct cb.
Qed.

(** C8.  A status message shown at time [now p] is visible under the
    class of its type, and its timer is set for 5000 milliseconds, that
    is 5 seconds, later.  Whatever happens in between, new submit
    requests included, and also if nothing happens at all, the status is
    hidden as soon as the clock has reached that time: no event cancels
    the timer, and none is needed to fire it. *)
Theorem showFormStatus_expires p message type evs ms :
  let shown := showFormStatus message type p in
  let q := run evs shown in
  now q < now p + 5 * 1000 ->
  now p + 5 * 1000 <= now q + ms ->
  className (statusElement shown) = lit "form-status " ++ type /\
  (now p + 5 * 1000, HideFormStatus) ∈ timers q /\
  className (statusElement (step (Elapse ms) q)) = lit "form-status".
Proof.
  intros shown q Hbefore Hafter.
  assert (Htm : (now p + 5 * 1000, HideFormStatus) ∈ timers q).
  { apply timers_run; [|done].
    unfold shown, showFormStatus, STATUS_DELAY. simpl timers.
    apply elem_of_app. right. by apply list_elem_of_singleton. }
  split; [done |]. split; [done |].
  cbn [step]. by eapply elapse_hides.
Qed.

End StatusTimer.

(* ===================================================================== *)
(** ** The displayed error state of a field *)
(* ===================================================================== *)

Section ErrorDisplay.

Context `{Engine}.

Implicit Types (p q : Page) (evs : list Event) (g : gmap nat Touch)
  (field f : Field) (doc : ErrorElements).

(** The displayed state depends on the name and the class list of the
    field and on its own error element only. *)
Lemma touchShown_ext f1 f2 doc1 doc2 t :
  name f1 = name f2 -> classList f1 = classList f2 ->
  doc1 !! (name f1 ++ lit "-error") = doc2 !! (name f1 ++ lit "-error") ->
  touchShown f1 doc1 t -> touchShown f2 doc2 t.
Proof.
  intros Hn Hc Hd.
  assert (errorShown f2 = errorShown f1) as Hs.
  { unfold errorShown. by rewrite Hc. }
  assert (forall m, errorTextIs f1 doc1 m -> errorTextIs f2 doc2 m) as Ht.
  { unfold errorTextIs, errorText. intros m Hm. by rewrite <- Hn, <- Hd. }
  destruct t as [|v]; simpl; rewrite Hs, <- ?Hn; intros [? ?]; auto.
Qed.

Lemma touchShown_validated f doc :
  touchShown (validateField f doc).2.1 (validateField f doc).2.2
    (Validated (value f)).
Proof.
  simpl. rewrite validateField_errorShown, validateField_name. split; [done |].
  unfold errorTextIs. rewrite validateField_errorText.
  intros t Ht. destruct (errorText f doc); [|done].
  by injection Ht as <-.
Qed.

Lemma touchShown_edited f doc :
  touchShown (clearFieldError f doc).1 (clearFieldError f doc).2 Edited.
Proof.
  simpl. split; [apply classList_contains_remove |].
  unfold errorTextIs, errorText. simpl. rewrite lookup_setErrorText_eq.
  intros t Ht. destruct (doc !! _); [|done].
  by injection Ht as <-.
Qed.

(** Distinct positions of a form with distinct names have distinct
    error elements. *)
Lemma errorId_distinct (inputs : list Field) i j fi fj :
  NoDup (name <$> inputs) -> i <> j ->
  inputs !! i = Some fi -> inputs !! j = Some fj ->
  name fi ++ lit "-error" <> name fj ++ lit "-error".
Proof.
  intros Hnd Hij Hi Hj Heq%errorId_inj. apply Hij.
  eapply (NoDup_lookup _ i j (name fi)); [exact Hnd | |].
  - by rewrite list_lookup_fmap, Hi.
  - by rewrite list_lookup_fmap, Hj, Heq.
Qed.

(** No event renames a field. *)
Lemma names_step e p :
  name <$> formInputs (step e p) = name <$> formInputs p.
Proof.
  destruct e as [i|i text| |k r|ms]; cbn [step].
  - destruct (formInputs p !! i) as [f|] eqn:Hi; [|done]. simpl.
    rewrite list_fmap_insert, validateField_name.
    apply list_insert_id. by rewrite list_lookup_fmap, Hi.
  - destruct (formInputs p !! i) as [f|] eqn:Hi; [|done]. simpl.
    rewrite list_fmap_insert. simpl.
    apply list_insert_id. by rewrite list_lookup_fmap, Hi.
  - rewrite handleFormSubmit_unfold.
    assert (name <$> ((fun f => (validateField f (errorElements p)).2.1)
                        <$> formInputs p) = name <$> formInputs p) as Hn.
    { rewrite <- list_fmap_compose. apply list_fmap_ext.
      intros _ f _. simpl. apply validateField_name. }
    by destruct (formValid p).
  - destruct (suspended p !! k); [|done]. destruct r; simpl; [|done].
    rewrite <- list_fmap_compose. by apply list_fmap_ext.
  - by destruct (elapse_frame ms p) as (-> & _).
Qed.

(** Every event keeps the displayed state of every field in step with
    the last touch of the field. *)
Lemma displayFollowsTouch_step e p g :
  NoDup (name <$> formInputs p) ->
  displayFollowsTouch p g ->
  displayFollowsTouch (step e p) (track e p g).
Proof.
  intros Hnd Hinv. destruct e as [i|i text| |k r|ms]; cbn [step track].
  - (* blur *)
    destruct (formInputs p !! i) as [f|] eqn:Hi; [|done].
    intros j fj t Hj Ht. simpl in Hj |- *.
    destruct (decide (i = j)) as [<-|Hij].
    + rewrite list_lookup_insert_eq in Hj by by eapply lookup_lt_Some.
      rewrite lookup_insert_eq in Ht.
      injection Hj as <-. injection Ht as <-. apply touchShown_validated.
    + rewrite list_lookup_insert_ne in Hj by done.
      rewrite lookup_insert_ne in Ht by done.
      eapply touchShown_ext; [done | done | | by eapply Hinv].
      symmetry. apply validateField_other_ids.
      by eapply (errorId_distinct (formInputs p) j i).
  - (* input *)
    destruct (formInputs p !! i) as [f|] eqn:Hi; [|done].
    intros j fj t Hj Ht. simpl in Hj |- *.
    destruct (decide (i = j)) as [<-|Hij].
    + rewrite list_lookup_insert_eq in Hj by by eapply lookup_lt_Some.
      rewrite lookup_insert_eq in Ht.
      injection Hj as <-. injection Ht as <-.
      apply (touchShown_edited
               (mkField (name f) text (defaultValue f) (classList f))).
    + rewrite list_lookup_insert_ne in Hj by done.
      rewrite lookup_insert_ne in Ht by done.
      eapply touchShown_ext; [done | done | | by eapply Hinv].
      symmetry. apply lookup_setErrorText_ne.
      by eapply (errorId_distinct (formInputs p) i j).
  - (* submit *)
    intros j fj t Hj Ht.
    rewrite lookup_map_seq_0, list_lookup_fmap in Ht.
    assert (exists f, formInputs p !! j = Some f /\
              fj = (validateField f (errorElements p)).2.1 /\
              errorElements (handleFormSubmit p)
                = docAfter (formInputs p) (errorElements p))
      as (f & Hf & -> & ->).
    { rewrite handleFormSubmit_unfold in Hj |- *.
      destruct (formValid p); simpl in Hj |- *;
        rewrite list_lookup_fmap in Hj;
        destruct (formInputs p !! j) as [f|]; try done;
        injection Hj as <-; eauto. }
    rewrite Hf in Ht. injection Ht as <-.
    eapply touchShown_ext; [done | done | | apply touchShown_validated].
    rewrite validateField_name. symmetry. by eapply docAfter_lookup.
  - (* settle *)
    destruct (suspended p !! k); [|done].
    intros j fj t Hj Ht. destruct r; simpl in Hj |- *.
    + rewrite list_lookup_fmap in Hj.
      destruct (formInputs p !! j) as [f|] eqn:Hf; [|done].
      injection Hj as <-.
      eapply touchShown_ext; [| | | by eapply Hinv]; done.
    + by eapply Hinv.
  - (* time *)
    destruct (elapse_frame ms p) as (Hi & Hd & _).
    intros j fj t Hj Ht. rewrite Hi in Hj. rewrite Hd. by eapply Hinv.
Qed.

(** Along every sequence of events on a form with distinct field names,
    the displayed error state of a field is at all times a function of
    its last touch alone: once the field has been edited, no error is
    displayed for it, whatever was displayed before; once it has been
    validated, what is displayed is what the rules give for the value it
    was validated with.  This ties the display to the listeners for
    [input] and [blur] and to the submit request, not to the value
    itself: [contactForm.reset()] changes values and is no touch. *)
Theorem error_display_follows_last_touch evs p :
  NoDup (name <$> formInputs p) ->
  displayFollowsTouch (run evs p) (lastTouch evs p ∅).
Proof.
  intros Hnd.
  assert (Hinit : displayFollowsTouch p ∅).
  { intros i f t _ Ht. by rewrite lookup_empty in Ht. }
  revert Hnd Hinit. generalize (∅ : gmap nat Touch).
  revert p. induction evs as [|e evs IH]; intros p g Hnd Hinv; [done |].
  change (run (e :: evs) p) with (run evs (step e p)).
  cbn [lastTouch]. apply IH.
  - by rewrite names_step.
  - by apply displayFollowsTouch_step.
Qed.

(** C6, where the code departs from it.  On the sample form: a submit
    request, then, while the submission is awaited, the name is edited
    to [A] and the field left, then the submission succeeds.  The
    success path resets the form, which fires no [input] event, so
    [clearFieldError] does not run: the name field is empty again, and
    still carries the class [error] and the message about the length of
    the name, which belongs to the value [A] that the field no longer
    holds. *)
Theorem reset_leaves_stale_error :
  let evs := [Submit; Input 0 (lit "A"); Blur 0; Settle 0 Fulfilled] in
  let q := run evs samplePage in
  lastTouch evs samplePage ∅ !! 0%nat = Some (Validated (lit "A")) /\
  exists field,
    formInputs q !! 0%nat = Some field /\
    name field = lit "name" /\
    value field = [] /\
    errorShown field = true /\
    errorText field (errorElements q)
    = Some (lit "Name must be at least 2 characters long.").
Proof.
  intros evs q. split; [by vm_compute |].
  exists (mkField (lit "name") [] [] [lit "error"]).
  split; [by vm_compute |]. split; [done |]. split; [done |].
  split; by vm_compute.
Qed.

End ErrorDisplay.

(* ===================================================================== *)
(** ** The properties on the sample form *)
(* ===================================================================== *)

Section Samples.

#[local] Existing Instance sampleEngine.

Lemma sampleInputs_NoDup : NoDup (name <$> sampleInputs).
Proof. apply (bool_decide_unpack _). vm_compute. reflexivity. Defined.

Example getFieldLabel_known :
  getFieldLabel (lit "name") = VString (lit "Name") /\
  getFieldLabel (lit "email") = VString (lit "Email") /\
  getFieldLabel (lit "message") = VString (lit "Message") /\
  getFieldLabel (lit "phone") = VString (lit "phone").
Proof. by vm_compute. Qed.

Example getFieldLabel_inherited :
  getFieldLabel (lit "constructor") = VBuiltin (lit "Object") /\
  getFieldLabel (lit "toString") = VBuiltin (lit "toString") /\
  getFieldLabel (lit "__proto__") = VObjectPrototype.
Proof. by vm_compute. Qed.

Example isValidEmail_samples :
  isValidEmail (lit "a@b.c") = true /\
  isValidEmail (lit "not-an-email") = false /\
  isValidEmail (lit "a@b.c.d") = true /\
  isValidEmail (lit "a b@c.d") = false /\
  isValidEmail (lit "a@@b.c") = false /\
  isValidEmail (lit "@b.c") = false.
Proof. by vm_compute. Qed.

Example validateField_name_samples :
  fieldValid (mkField (lit "name") (lit "Al") [] []) = true /\
  fieldValid (mkField (lit "name") (lit "A") [] []) = false /\
  fieldValid (mkField (lit "name") (lit "  A  ") [] []) = false /\
  messageOf (mkField (lit "name") (lit "   ") [] []) = lit "Name is required." /\
  messageOf (mkField (lit "message") (lit "too short") [] [])
    = lit "Message must be at least 10 characters long.".
Proof. by vm_compute. Qed.

Lemma validateField_first_failing_rule_witness :
  let field := mkField (lit "name") (lit " A ") [] [lit "error"] in
  let r := validateField field sampleDoc in
  r.1 = false /\ errorShown r.2.1 = true /\
  errorText r.2.1 r.2.2 = Some (lit "Name must be at least 2 characters long.").
Proof.
  intros field r.
  destruct (validateField_first_failing_rule field sampleDoc)
    as ((Hv & Hs & Ht) & _).
  split; [exact Hv |]. split; [exact Hs |].
  etransitivity; [exact Ht |]. by vm_compute.
Defined.

Lemma validateAll_no_short_circuit_witness :
  NoDup (name <$> formInputs shortNamePage) /\
  let r := validateAll (formInputs shortNamePage) sampleDoc in
  r.1 = false /\
  errorText (mkField (lit "name") (lit "A") [] []) r.2.2
    = Some (lit "Name must be at least 2 characters long.") /\
  errorText (mkField (lit "email") (lit "a@b.c") [] []) r.2.2 = Some [] /\
  errorText (mkField (lit "message") (lit "Hello, world!") [] []) r.2.2 = Some [].
Proof.
  assert (Hnd : NoDup (name <$> formInputs shortNamePage)).
  { apply (bool_decide_unpack _). vm_compute. reflexivity. }
  split; [exact Hnd |].
  destruct (validateAll_no_short_circuit (formInputs shortNamePage) sampleDoc Hnd)
    as (Hall & _ & Heach).
  intros r. split; [etransitivity; [exact Hall | by vm_compute] |].
  split; [|split].
  - etransitivity; [exact (proj2 (Heach 0%nat _ eq_refl)) | by vm_compute].
  - etransitivity; [exact (proj2 (Heach 1%nat _ eq_refl)) | by vm_compute].
  - etransitivity; [exact (proj2 (Heach 2%nat _ eq_refl)) | by vm_compute].
Defined.

Lemma validateField_email_witness :
  let field := mkField (lit "email") (lit " a@b.c ") [] [] in
  name field = lit "email" /\ trim (value field) <> [] /\
  ((validateField field sampleDoc).1 = true <-> emailShape (trim (value field))).
Proof.
  intros field.
  assert (Hn : name field = lit "email") by reflexivity.
  assert (Hv : trim (value field) <> []) by (by vm_compute).
  split; [exact Hn |]. split; [exact Hv |].
  exact (proj2 (proj2 validateField_email) field sampleDoc Hn Hv).
Defined.

Lemma handleFormSubmit_rejected_witness :
  let f := mkField (lit "name") (lit "A") [] [] in
  f ∈ formInputs shortNamePage /\ fieldValid f = false /\
  statusElement (step Submit shortNamePage) =
    mkStatus (lit "Please correct the errors above.") (lit "form-status error") /\
  suspended (step Submit shortNamePage) = [] /\
  submitButton (step Submit shortNamePage) = submitButton shortNamePage.
Proof.
  intros f.
  assert (Hf : f ∈ formInputs shortNamePage) by (by left).
  assert (Hv : fieldValid f = false) by (by vm_compute).
  split; [exact Hf |]. split; [exact Hv |].
  destruct (handleFormSubmit_rejected shortNamePage f Hf Hv) as (Hs & Hw & Hb & _).
  split; [exact Hs |]. split; [exact Hw | exact Hb].
Defined.

Lemma handleFormSubmit_error_opaque_witness :
  step (Settle 0 (Rejected simulatedError)) waitingPage =
  step (Settle 0 (Rejected VUndefined)) waitingPage.
Proof.
  exact (proj1 (handleFormSubmit_error_opaque waitingPage 0
                  simulatedError VUndefined)).
Defined.

Lemma handleFormSubmit_field_values_witness :
  suspended waitingPage !! 0%nat = Some (lit "Send Message") /\
  formInputs (step (Settle 0 (Rejected simulatedError)) waitingPage)
    = formInputs waitingPage /\
  Forall (fun f => value f = [])
    (formInputs (step (Settle 0 Fulfilled) waitingPage)).
Proof.
  assert (Hk : suspended waitingPage !! 0%nat = Some (lit "Send Message"))
    by reflexivity.
  split; [exact Hk |].
  destruct (handleFormSubmit_field_values waitingPage 0 _ Hk)
    as (_ & Hfail & _ & Hok).
  split; [exact (Hfail simulatedError) |].
  apply Hok. unfold waitingPage, sampleInputs. simpl.
  repeat constructor.
Defined.

(** C4 as it was stated fails on a form with a default value: after a
    successful submission of the prefilled sample form the name field
    holds its default value again and is not cleared. *)
Lemma handleFormSubmit_success_restores_default :
  let q := run [Submit; Settle 0 Fulfilled] prefilledPage in
  formValid prefilledPage = true /\
  statusText (statusElement q)
  = lit "Thank you! Your message has been sent successfully." /\
  value <$> formInputs q = [lit "Bob"; []; []] /\
  ~ Forall (fun f => value f = []) (formInputs q).
Proof.
  intros q.
  split; [by vm_compute |]. split; [by vm_compute |].
  split; [by vm_compute |].
  intros Hall.
  assert (Hq : formInputs q !! 0%nat
               = Some (mkField (lit "name") (lit "Bob") (lit "Bob") []))
    by (by vm_compute).
  by apply (Forall_lookup_1 _ _ _ _ Hall) in Hq.
Qed.

Lemma handleFormSubmit_busy_once_witness :
  let evs := [Elapse 1000; Input 0 (lit "Alice"); Blur 0; Elapse 1000] in
  formValid samplePage = true /\ busy samplePage = false /\
  suspended samplePage = [] /\ forallb bystander evs = true /\
  submitButton (run (Submit :: evs ++ [Settle 0 (Rejected simulatedError)])
                  samplePage)
    = mkButton [lit "form-submit"] false (lit "Send Message").
Proof.
  intros evs.
  assert (H1 : formValid samplePage = true) by (by vm_compute).
  assert (H2 : busy samplePage = false) by reflexivity.
  assert (H3 : suspended samplePage = []) by reflexivity.
  assert (H4 : forallb bystander evs = true) by reflexivity.
  split; [exact H1 |]. split; [exact H2 |]. split; [exact H3 |].
  split; [exact H4 |].
  destruct (handleFormSubmit_busy_once samplePage evs
              (Rejected simulatedError) H1 H2 H3 H4) as (_ & _ & _ & Hb & _).
  etransitivity; [exact Hb | by vm_compute].
Defined.

Lemma showFormStatus_expires_witness :
  let shown := showFormStatus (lit "Please correct the errors above.")
                 (lit "error") samplePage in
  now shown < now samplePage + 5 * 1000 /\
  now samplePage + 5 * 1000 <= now shown + 5000 /\
  className (statusElement shown) = lit "form-status error" /\
  className (statusElement (step (Elapse 5000) shown)) = lit "form-status".
Proof.
  intros shown.
  assert (H1 : now (run [] shown) < now samplePage + 5 * 1000) by (by vm_compute).
  assert (H2 : now samplePage + 5 * 1000 <= now (run [] shown) + 5000)
    by (by vm_compute).
  split; [exact H1 |]. split; [exact H2 |].
  destruct (showFormStatus_expires samplePage
              (lit "Please correct the errors above.") (lit "error")
              [] 5000 H1 H2) as (Hs & _ & Hh).
  split; [exact Hs | exact Hh].
Defined.

Lemma error_display_follows_last_touch_witness :
  let evs := [Input 0 (lit "A"); Blur 0; Input 0 (lit "Al")] in
  NoDup (name <$> formInputs samplePage) /\
  displayFollowsTouch (run evs samplePage) (lastTouch evs samplePage ∅).
Proof.
  intros evs. split; [exact sampleInputs_NoDup |].
  exact (error_display_follows_last_touch evs samplePage sampleInputs_NoDup).
Defined.

End Samples.

(* ===================================================================== *)
(** ** More on [validateField], [showFieldError] and [clearFieldError] *)
(* ===================================================================== *)

Section FieldExtras.

Context `{Engine}.

Implicit Types (s t : js_string) (l : list js_string) (field : Field)
  (doc : ErrorElements).

(** [trimStart] drops a prefix of white space. *)
Lemma trimStart_split s :
  exists w, s = w ++ trimStart s /\ Forall (fun c => isWhiteSpace c = true) w.
Proof.
  induction s as [|c s (w & Hs & Hw)]; simpl.
  - by exists [].
  - destruct (isWhiteSpace c) eqn:Hc.
    + exists (c :: w). split; [by rewrite Hs at 1 | by constructor].
    + by exists [].
Qed.

Lemma trimStart_fixed s :
  (forall c t, s = c :: t -> isWhiteSpace c = false) -> trimStart s = s.
Proof.
  destruct s as [|c t]; [done |]. intros Hc. simpl.
  by rewrite (Hc c t eq_refl).
Qed.

Lemma trimEnd_split s :
  exists w, s = trimEnd s ++ w /\ Forall (fun c => isWhiteSpace c = true) w.
Proof.
  unfold trimEnd. destruct (trimStart_split (rev s)) as (w & Hs & Hw).
  exists (rev w). split; [|by apply Forall_rev].
  rewrite <- rev_app_distr, <- Hs. by rewrite rev_involutive.
Qed.

Lemma trimEnd_idem s : trimEnd (trimEnd s) = trimEnd s.
Proof.
  unfold trimEnd. rewrite rev_involutive. f_equal.
  apply trimStart_fixed. intros c t Ht. by eapply trimStart_head.
Qed.

(** Trimming what is trimmed changes nothing. *)
Lemma trim_idem s : trim (trim s) = trim s.
Proof.
  unfold trim.
  assert (trimStart (trimEnd (trimStart s)) = trimEnd (trimStart s)) as ->.
  { apply trimStart_fixed. intros c t Ht.
    destruct (trimEnd_split (trimStart s)) as (w & Hs & _).
    rewrite Ht in Hs. by eapply trimStart_head. }
  apply trimEnd_idem.
Qed.

(** X1.  White space around a value never matters to the validation:
    a field holding [v] and the same field holding the trimmed [v] get
    the same verdict and the same message. *)
Theorem validateField_ignores_outer_space field doc v :
  let padded := mkField (name field) v (defaultValue field) (classList field) in
  let bare :=
    mkField (name field) (trim v) (defaultValue field) (classList field) in
  (validateField padded doc).1 = (validateField bare doc).1 /\
  errorText (validateField padded doc).2.1 (validateField padded doc).2.2
  = errorText (validateField bare doc).2.1 (validateField bare doc).2.2.
Proof.
  intros padded bare.
  rewrite !validateField_verdict, !validateField_errorText.
  unfold fieldValid, messageOf, errorText. simpl. by rewrite trim_idem.
Qed.

Lemma classList_remove_idem cls l :
  classList_remove cls (classList_remove cls l) = classList_remove cls l.
Proof.
  unfold classList_remove. induction l as [|c l IH]; [done |].
  rewrite filter_cons. case_decide; [|done].
  rewrite filter_cons. case_decide; [|done]. by rewrite IH.
Qed.

Lemma classList_remove_app cls l1 l2 :
  classList_remove cls (l1 ++ l2)
  = classList_remove cls l1 ++ classList_remove cls l2.
Proof. unfold classList_remove. apply filter_app. Qed.

Lemma classList_remove_add cls l :
  classList_remove cls (classList_add cls l) = classList_remove cls l.
Proof.
  unfold classList_add. case_decide; [done |].
  rewrite classList_remove_app. unfold classList_remove at 2.
  rewrite filter_cons. case_decide; [done |]. by rewrite app_nil_r.
Qed.

Lemma classList_add_removed cls l :
  classList_add cls (classList_remove cls l) = classList_remove cls l ++ [cls].
Proof.
  unfold classList_add. case_decide as Hin; [|done].
  apply elem_of_classList_remove in Hin. tauto.
Qed.

(** X2.  [clearFieldError] undoes [showFieldError]: showing a message
    and clearing it leaves the field and its error element as clearing
    alone does, whatever the message. *)
Theorem clearFieldError_after_show field doc message :
  let shown := showFieldError field message doc in
  clearFieldError shown.1 shown.2 = clearFieldError field doc.
Proof.
  intros shown. unfold shown, clearFieldError, showFieldError, withClassList.
  cbn [fst snd name value defaultValue classList].
  by rewrite classList_remove_add, setErrorText_twice.
Qed.

(** X3.  Validating a field a second time changes nothing: the verdict
    is the same, and so are the field and all error elements. *)
Theorem validateField_idempotent field doc :
  let r := validateField field doc in
  validateField r.2.1 r.2.2 = r.
Proof.
  intros r. subst r.
  assert (Hvalid : fieldValid (validateField field doc).2.1 = fieldValid field).
  { unfold fieldValid. by rewrite validateField_name, validateField_value. }
  assert (Hmsg : messageOf (validateField field doc).2.1 = messageOf field).
  { unfold messageOf. by rewrite validateField_name, validateField_value. }
  apply injective_projections; [|apply injective_projections].
  - by rewrite !validateField_verdict.
  - rewrite (validateField_field (validateField field doc).2.1), Hvalid.
    rewrite !(validateField_field field doc). unfold withClassList.
    cbn [fst snd name value defaultValue classList].
    destruct (fieldValid field).
    + by rewrite classList_remove_idem.
    + by rewrite classList_remove_add, classList_remove_idem.
  - rewrite (validateField_doc (validateField field doc).2.1), Hmsg.
    rewrite validateField_name, (validateField_doc field doc).
    apply setErrorText_twice.
Qed.

Lemma assoc_None (props : list (js_string * jsval)) key :
  key ∉ props.*1 -> assoc props key = None.
Proof.
  induction props as [|[k v] props IH]; [done |]. simpl.
  rewrite not_elem_of_cons. intros [Hne Hin].
  case_decide; [congruence | by apply IH].
Qed.

(** X4.  For a field whose name is neither an own property of [labels]
    nor a property of [Object.prototype], a value of white space only
    fails with the raw name as the label: "<name> is required.". *)
Theorem validateField_required_raw_name field doc :
  name field ∉ ownLabelNames -> name field ∉ inheritedNames ->
  Forall (fun c => isWhiteSpace c = true) (value field) ->
  let r := validateField field doc in
  r.1 = false /\
  errorText r.2.1 r.2.2
  = (fun _ => name field ++ lit " is required.") <$> errorText field doc.
Proof.
  intros Hown Hinh Hws r. subst r.
  destruct (validateField_white_space field doc Hws) as [Hv Hm].
  split; [exact Hv |].
  rewrite validateField_errorText, Hm. unfold requiredMessage.
  by rewrite getFieldLabel_fallback by by apply assoc_None.
Qed.

End FieldExtras.

(* ===================================================================== *)
(** ** More on [isValidEmail] *)
(* ===================================================================== *)

Section EmailExtras.

Implicit Types (s : js_string).

Lemma emailPart_clean s :
  emailPart s ->
  Forall (fun c => isWhiteSpace c = false) s /\
  List.filter (N.eqb 64) s = [] /\ (1 <= length s)%nat.
Proof.
  intros [Hne Hall]. split; [|split].
  - eapply Forall_impl; [exact Hall |]. intros c Hc. unfold notSpaceOrAt in Hc.
    apply negb_true_iff, orb_false_iff in Hc. tauto.
  - clear Hne. induction Hall as [|c l Hc _ IH]; [done |].
    cbn [List.filter]. unfold notSpaceOrAt in Hc.
    apply negb_true_iff, orb_false_iff in Hc as [_ Hc].
    rewrite (N.eqb_sym 64 c), Hc. exact IH.
  - destruct s; [done | simpl; lia].
Qed.

(** X5.  What [isValidEmail] accepts has no white space, exactly one
    [@], a dot somewhere, and at least five code units. *)
Theorem isValidEmail_necessary s :
  isValidEmail s = true ->
  Forall (fun c => isWhiteSpace c = false) s /\
  length (List.filter (N.eqb 64) s) = 1%nat /\
  46 ∈ s /\
  (5 <= length s)%nat.
Proof.
  intros (loc & dom & tld & -> & Hl & Hd & Ht)%isValidEmail_shape.
  destruct (emailPart_clean _ Hl) as (Wl & Al & Ll).
  destruct (emailPart_clean _ Hd) as (Wd & Ad & Ld).
  destruct (emailPart_clean _ Ht) as (Wt & At' & Lt).
  change (lit "@") with ([64] : js_string).
  change (lit ".") with ([46] : js_string).
  split; [|split; [|split]].
  - repeat (apply Forall_app; split); try done; by repeat constructor.
  - rewrite !List.filter_app, Al, Ad, At'. done.
  - rewrite !elem_of_app. right. right. right. left. by left.
  - rewrite !length_app. simpl. lia.
Qed.

End EmailExtras.

(* ===================================================================== *)
(** ** More on the form as a whole *)
(* ===================================================================== *)

Section FormExtras.

Context `{Engine}.

Implicit Types (p q : Page) (evs : list Event) (field f : Field)
  (inputs : list Field) (doc : ErrorElements).

Lemma dom_setErrorText (id t : js_string) doc :
  dom (setErrorText id t doc) = dom doc.
Proof.
  unfold setErrorText. destruct (doc !! id) eqn:Hd; [|done].
  apply dom_insert_lookup_L. by rewrite Hd.
Qed.

Lemma dom_docAfter inputs doc : dom (docAfter inputs doc) = dom doc.
Proof.
  revert doc. induction inputs as [|f inputs IH]; intros doc; [done |].
  unfold docAfter. simpl. fold (docAfter inputs (validateField f doc).2.2).
  by rewrite IH, validateField_doc, dom_setErrorText.
Qed.

Lemma errorElements_submit p :
  errorElements (handleFormSubmit p)
  = docAfter (formInputs p) (errorElements p).
Proof. rewrite handleFormSubmit_unfold. by destruct (formValid p). Qed.

Lemma formInputs_submit p :
  formInputs (handleFormSubmit p)
  = (fun f => (validateField f (errorElements p)).2.1) <$> formInputs p.
Proof. rewrite handleFormSubmit_unfold. by destruct (formValid p). Qed.

Lemma dom_step e p : dom (errorElements (step e p)) = dom (errorElements p).
Proof.
  destruct e as [i|i text| |k r|ms]; cbn [step].
  - destruct (formInputs p !! i); [|done]. simpl.
    by rewrite validateField_doc, dom_setErrorText.
  - destruct (formInputs p !! i); [|done]. simpl. apply dom_setErrorText.
  - by rewrite errorElements_submit, dom_docAfter.
  - destruct (suspended p !! k); [|done]. by destruct r.
  - by destruct (elapse_frame ms p) as (_ & -> & _).
Qed.

Lemma defaults_step e p :
  defaultValue <$> formInputs (step e p) = defaultValue <$> formInputs p.
Proof.
  destruct e as [i|i text| |k r|ms]; cbn [step].
  - destruct (formInputs p !! i) as [f|] eqn:Hi; [|done]. simpl.
    rewrite list_fmap_insert, validateField_field. simpl.
    apply list_insert_id. by rewrite list_lookup_fmap, Hi.
  - destruct (formInputs p !! i) as [f|] eqn:Hi; [|done]. simpl.
    rewrite list_fmap_insert. simpl.
    apply list_insert_id. by rewrite list_lookup_fmap, Hi.
  - rewrite formInputs_submit, <- list_fmap_compose. apply list_fmap_ext.
    intros _ f _. simpl. by rewrite validateField_field.
  - destruct (suspended p !! k); [|done]. destruct r; simpl; [|done].
    rewrite <- list_fmap_compose. by apply list_fmap_ext.
  - by destruct (elapse_frame ms p) as (-> & _).
Qed.

(** X6.  No event adds, removes or renames a field, changes a default
    value, or adds or removes an error element. *)
Theorem form_structure_fixed evs p :
  name <$> formInputs (run evs p) = name <$> formInputs p /\
  defaultValue <$> formInputs (run evs p) = defaultValue <$> formInputs p /\
  dom (errorElements (run evs p)) = dom (errorElements p).
Proof.
  revert p. induction evs as [|e evs IH]; intros p; [done |].
  change (run (e :: evs) p) with (run evs (step e p)).
  destruct (IH (step e p)) as (-> & -> & ->).
  by rewrite names_step, defaults_step, dom_step.
Qed.

Lemma docAfter_valid inputs doc id :
  forallb fieldValid inputs = true ->
  docAfter inputs doc !! id
  = if decide (id ∈ (fun f => name f ++ lit "-error") <$> inputs)
    then (fun _ => []) <$> doc !! id else doc !! id.
Proof.
  revert doc. induction inputs as [|f inputs IH]; intros doc Hall; [done |].
  cbn [forallb] in Hall. apply andb_true_iff in Hall as [Hf Hall].
  unfold docAfter. simpl fold_left.
  fold (docAfter inputs (validateField f doc).2.2).
  rewrite IH, validateField_doc by done.
  assert (messageOf f = []) as ->.
  { unfold fieldValid in Hf. apply bool_decide_eq_true in Hf.
    unfold messageOf. by rewrite Hf. }
  rewrite fmap_cons.
  destruct (decide (name f ++ lit "-error" = id)) as [<-|Hne].
  - rewrite lookup_setErrorText_eq.
    rewrite (decide_True (P := _ ∈ _ :: _)) by by left.
    case_decide; [|done]. by destruct (doc !! _).
  - rewrite lookup_setErrorText_ne by done.
    case_decide as Hin.
    + rewrite decide_True; [done | by right].
    + rewrite decide_False; [done |].
      rewrite not_elem_of_cons. split; [congruence | done].
Qed.

(** X7.  A submit request on a valid form leaves no error on display:
    no field carries the class [error], the error element of every
    field is empty, and the status element is not touched. *)
Theorem handleFormSubmit_valid_clears_errors p :
  formValid p = true ->
  let q := step Submit p in
  (forall f, f ∈ formInputs q ->
     errorShown f = false /\ errorTextIs f (errorElements q) []) /\
  statusElement q = statusElement p /\
  timers q = timers p.
Proof.
  intros Hvalid q. subst q. cbn [step].
  split; [|by rewrite handleFormSubmit_unfold, Hvalid].
  intros f' Hf'. rewrite formInputs_submit in Hf'.
  apply list_elem_of_fmap in Hf' as (f & -> & Hf).
  assert (Hfv : fieldValid f = true).
  { unfold formValid in Hvalid. rewrite forallb_forall in Hvalid.
    apply Hvalid. by apply list_elem_of_In. }
  split.
  - by rewrite validateField_errorShown, Hfv.
  - unfold errorTextIs, errorText.
    rewrite errorElements_submit, validateField_name.
    rewrite docAfter_valid by exact Hvalid.
    rewrite decide_True.
    + intros t Ht. destruct (errorElements p !! _); [|done].
      by injection Ht as <-.
    + by apply (list_elem_of_fmap_2 (fun f => name f ++ lit "-error")).
Qed.

Lemma fieldValid_validated f doc :
  fieldValid (validateField f doc).2.1 = fieldValid f.
Proof. unfold fieldValid. by rewrite validateField_name, validateField_value. Qed.

(** Validating a form does not change whether it is valid. *)
Lemma formValid_submit p : formValid (handleFormSubmit p) = formValid p.
Proof.
  unfold formValid. rewrite formInputs_submit.
  induction (formInputs p) as [|f l IH]; [done |].
  rewrite fmap_cons. cbn [forallb]. by rewrite fieldValid_validated, IH.
Qed.

(** X8.  A failed attempt can be repeated as it is: after the submit
    request on a valid form and the rejection of the submission, with
    any error, the form is still valid, the submit control is enabled
    under its original label and nothing is awaited, so that the next
    submit request starts a submission again. *)
Theorem handleFormSubmit_retry p (error : jsval) :
  formValid p = true -> suspended p = [] ->
  let q := run [Submit; Settle 0 (Rejected error)] p in
  formValid q = true /\
  disabled (submitButton q) = false /\
  textContent (submitButton q) = textContent (submitButton p) /\
  suspended q = [] /\
  disabled (submitButton (step Submit q)) = true /\
  suspended (step Submit q) = [textContent (submitButton p)].
Proof.
  intros Hvalid Hnone q.
  assert (Hq : q = handleFormSubmit_settled (textContent (submitButton p))
                 (Rejected error)
                 (mkPage (formInputs (handleFormSubmit p))
                    (errorElements (handleFormSubmit p))
                    (statusElement p)
                    (mkButton (classList_add (lit "loading")
                                 (buttonClassList (submitButton p)))
                              true (lit "Sending..."))
                    (now p) (timers p) [])).
  { unfold q, run. cbn [fold_left step].
    rewrite formInputs_submit, errorElements_submit.
    rewrite handleFormSubmit_unfold, Hvalid. simpl. by rewrite Hnone. }
  assert (Hv : formValid q = true).
  { rewrite Hq. unfold formValid. simpl.
    fold (formValid (handleFormSubmit p)). by rewrite formValid_submit. }
  clearbody q. split; [exact Hv |].
  assert (Hb : submitButton q =
               mkButton (classList_remove (lit "loading")
                           (classList_add (lit "loading")
                              (buttonClassList (submitButton p))))
                        false (textContent (submitButton p)) /\
               suspended q = []) by by rewrite Hq.
  destruct Hb as [Hb Hs]. rewrite Hb, Hs. cbn [disabled textContent].
  split; [done |]. split; [done |]. split; [done |].
  cbn [step]. rewrite handleFormSubmit_unfold, Hv. simpl.
  by rewrite Hb, Hs.
Qed.

(** X9.  After a successful submission of a form whose fields have no
    default value the form is empty, and an empty form is not sent: the
    next submit request is turned down with the aggregate error message
    and awaits nothing. *)
Theorem handleFormSubmit_empty_after_success p k originalText :
  suspended p !! k = Some originalText ->
  formInputs p <> [] ->
  Forall (fun f => defaultValue f = []) (formInputs p) ->
  let q := step (Settle k Fulfilled) p in
  formValid q = false /\
  statusElement (step Submit q) =
    mkStatus (lit "Please correct the errors above.") (lit "form-status error") /\
  suspended (step Submit q) = suspended q.
Proof.
  intros Hk Hne Hd q.
  assert (Hq : formInputs q =
               (fun f => mkField (name f) (defaultValue f) (defaultValue f)
                           (classList f)) <$> formInputs p).
  { unfold q. cbn [step]. by rewrite Hk. }
  assert (Hv : formValid q = false).
  { unfold formValid. rewrite Hq.
    destruct (formInputs p) as [|f l]; [done |].
    apply Forall_cons in Hd as [Hf _].
    rewrite fmap_cons. cbn [forallb]. apply andb_false_iff. left.
    unfold fieldValid, firstFailingRule. simpl. by rewrite Hf. }
  clearbody q. split; [exact Hv |].
  cbn [step]. by rewrite handleFormSubmit_unfold, Hv.
Qed.

Lemma timersFresh_step e p : timersFresh p -> timersFresh (step e p).
Proof.
  intros Hfresh tm Htm. rewrite now_step.
  destruct e as [i|i text| |k r|ms]; cbn [step] in Htm.
  - rewrite N.add_0_r. apply Hfresh.
    by destruct (formInputs p !! i).
  - rewrite N.add_0_r. apply Hfresh.
    by destruct (formInputs p !! i).
  - rewrite N.add_0_r. rewrite handleFormSubmit_unfold in Htm.
    destruct (formValid p); simpl in Htm; [by apply Hfresh |].
    apply elem_of_app in Htm as [Htm|Htm%list_elem_of_singleton];
      [by apply Hfresh |].
    subst tm. unfold STATUS_DELAY. simpl. lia.
  - rewrite N.add_0_r. destruct (suspended p !! k); [|by apply Hfresh].
    assert (tm ∈ timers p ++ [(now p + STATUS_DELAY, HideFormStatus)]) as Htm'
      by by destruct r.
    apply elem_of_app in Htm' as [Htm'|Htm'%list_elem_of_singleton];
      [by apply Hfresh |].
    subst tm. unfold STATUS_DELAY. simpl. lia.
  - destruct (elapse_frame ms p) as (_ & _ & _ & Ht). rewrite Ht in Htm.
    apply list_elem_of_In, filter_In in Htm as [Htm Hdue].
    apply list_elem_of_In, Hfresh in Htm.
    unfold dueAt in Hdue. apply negb_true_iff, N.leb_gt in Hdue. lia.
Qed.

Lemma filter_none_due t (l : list Timer) :
  List.filter (dueAt t) l = [] ->
  List.filter (fun tm => negb (dueAt t tm)) l = l.
Proof.
  induction l as [|tm l IH]; [done |]. simpl.
  destruct (dueAt t tm); [done |]. intros Hl. simpl. by rewrite IH.
Qed.

Lemma statusBacked_step e p : statusBacked p -> statusBacked (step e p).
Proof.
  intros Hb. destruct e as [i|i text| |k r|ms]; cbn [step].
  - by destruct (formInputs p !! i).
  - by destruct (formInputs p !! i).
  - rewrite handleFormSubmit_unfold. destruct (formValid p); [done |].
    right. simpl. by intros [? ?]%app_eq_nil.
  - destruct (suspended p !! k); [|done].
    right. destruct r; simpl; by intros [? ?]%app_eq_nil.
  - unfold statusBacked, elapse.
    destruct (List.filter (dueAt (now p + ms)) (timers p))
      as [|[d cb] due] eqn:Hdue.
    + simpl. rewrite (filter_none_due _ _ Hdue). exact Hb.
    + left. simpl. apply runCallbacks_hidden. by destruct cb.
Qed.

Lemma invariants_run evs p :
  timersFresh p -> statusBacked p ->
  timersFresh (run evs p) /\ statusBacked (run evs p).
Proof.
  revert p. induction evs as [|e evs IH]; intros p Hf Hb; [done |].
  change (run (e :: evs) p) with (run evs (step e p)).
  apply IH; [by apply timersFresh_step | by apply statusBacked_step].
Qed.

(** X10.  No status outlives five seconds of waiting.  From a page whose
    pending timers are all due within the next 5000 milliseconds and
    whose status, if visible, has a timer pending, after any events at
    all, a wait of 5000 milliseconds or more leaves the status hidden
    and no timer pending. *)
Theorem showFormStatus_quiescent evs p ms :
  timersFresh p -> statusBacked p -> 5000 <= ms ->
  let q := step (Elapse ms) (run evs p) in
  className (statusElement q) = lit "form-status" /\ timers q = [].
Proof.
  intros Hf Hb Hms q. subst q.
  destruct (invariants_run evs p Hf Hb) as [Hf' Hb'].
  set (r := run evs p) in *. clearbody r. cbn [step]. split.
  - destruct Hb' as [Hhidden|Hsome].
    + unfold elapse. by apply runCallbacks_hidden.
    + destruct (timers r) as [|[d cb] l] eqn:Ht; [done |].
      destruct cb. apply (elapse_hides ms r d).
      * rewrite Ht. by left.
      * assert ((d, HideFormStatus) ∈ timers r) as Hin by (rewrite Ht; by left).
        apply Hf' in Hin. simpl in Hin. lia.
  - destruct (elapse_frame ms r) as (_ & _ & _ & ->).
    assert (Hall : forall tm, tm ∈ timers r -> dueAt (now r + ms) tm = true).
    { intros tm Htm%Hf'. unfold dueAt. apply N.leb_le. lia. }
    induction (timers r) as [|tm l IH]; [done |]. simpl.
    rewrite Hall by by left. simpl. apply IH. intros tm' Htm'.
    apply Hall. by right.
Qed.

Lemma statusKnown_hidden (st : StatusElement) :
  statusKnown (mkStatus (statusText st) (lit "form-status")).
Proof. by left. Qed.

Lemma statusKnown_callbacks (due : list Timer) p :
  statusKnown (statusElement p) ->
  statusKnown (statusElement (fold_left (fun p tm => runCallback tm.2 p) due p)).
Proof.
  revert p. induction due as [|[d cb] due IH]; intros p Hp; [done |].
  simpl. apply IH. destruct cb. simpl. by left.
Qed.

Lemma statusKnown_step e p :
  statusKnown (statusElement p) -> statusKnown (statusElement (step e p)).
Proof.
  intros Hk. destruct e as [i|i text| |k r|ms]; cbn [step].
  - by destruct (formInputs p !! i).
  - by destruct (formInputs p !! i).
  - rewrite handleFormSubmit_unfold. destruct (formValid p); [done |].
    right. by left.
  - destruct (suspended p !! k); [|done]. destruct r; simpl.
    + right. right. by right.
    + right. right. by left.
  - unfold elapse. by apply statusKnown_callbacks.
Qed.

(** X11.  The status element only ever shows what the script gives it:
    once it is hidden or shows one of the three messages of the script
    under the class of the kind of that message, this stays so whatever
    happens; in particular the class [success] goes with the thank-you
    message alone. *)
Theorem status_stays_known evs p :
  statusKnown (statusElement p) ->
  statusKnown (statusElement (run evs p)) /\
  (className (statusElement (run evs p)) = lit "form-status success" ->
   statusText (statusElement (run evs p))
   = lit "Thank you! Your message has been sent successfully.").
Proof.
  intros Hk.
  assert (Hrun : statusKnown (statusElement (run evs p))).
  { revert p Hk. induction evs as [|e evs IH]; intros p Hk; [done |].
    change (run (e :: evs) p) with (run evs (step e p)).
    by apply IH, statusKnown_step. }
  split; [exact Hrun |].
  destruct Hrun as [Hc|[Hc|[Hc|Hc]]]; by rewrite Hc.
Qed.

(** X12.  [handleFormSubmit] does not look at the busy state itself.  If
    a second submit event reaches it while the first submission is still
    awaited, the second call takes the pending label for the original
    one, and when both submissions have settled, in the order in which
    they started, the control is enabled but still reads "Sending...". *)
Theorem handleFormSubmit_reentered p r1 r2 :
  formValid p = true -> suspended p = [] ->
  let q := run [Submit; Submit; Settle 0 r1; Settle 0 r2] p in
  disabled (submitButton q) = false /\
  textContent (submitButton q) = lit "Sending..." /\
  suspended q = [].
Proof.
  intros Hvalid Hnone q. subst q. unfold run. cbn [fold_left].
  set (p1 := step Submit p).
  assert (H1 : formValid p1 = true /\
               textContent (submitButton p1) = lit "Sending..." /\
               suspended p1 = [textContent (submitButton p)]).
  { unfold p1. cbn [step]. rewrite formValid_submit.
    rewrite handleFormSubmit_unfold, Hvalid. simpl. by rewrite Hnone. }
  destruct H1 as (Hv1 & Ht1 & Hs1). clearbody p1.
  set (p2 := step Submit p1).
  assert (H2 : suspended p2 = [textContent (submitButton p); lit "Sending..."]).
  { unfold p2. cbn [step]. rewrite handleFormSubmit_unfold, Hv1. simpl.
    by rewrite Hs1, Ht1. }
  clearbody p2.
  set (p3 := step (Settle 0 r1) p2).
  assert (H3 : suspended p3 = [lit "Sending..."]).
  { unfold p3. cbn [step]. rewrite H2. by destruct r1. }
  clearbody p3.
  cbn [step]. rewrite H3. by destruct r2.
Qed.

End FormExtras.

(* ===================================================================== *)
(** ** The navigation menu: facts *)
(* ===================================================================== *)

Section NavFacts.

Implicit Types (s q : NavState) (evs : list NavEvent) (l : list js_string).

Lemma elem_of_classList_toggle cls l c :
  c ∈ classList_toggle cls l <->
  (c = cls /\ cls ∉ l) \/ (c <> cls /\ c ∈ l).
Proof.
  unfold classList_toggle. case_decide as Hin.
  - rewrite elem_of_classList_remove. split.
    + intros [? ?]. by right.
    + intros [[-> ?]|[? ?]]; done.
  - rewrite elem_of_app, list_elem_of_singleton. split.
    + intros [Hc| ->]; [|by left].
      right. split; [|done]. by intros ->.
    + intros [[-> _]|[_ ?]]; [by right | by left].
Qed.

Lemma menuOpen_toggle s : menuOpen (toggleMobileMenu s) = negb (menuOpen s).
Proof.
  unfold menuOpen, classList_contains, toggleMobileMenu, withMenu.
  cbn [menuClassList].
  destruct (bool_decide (lit "active" ∈ menuClassList s)) eqn:Hin; cbn [negb].
  - apply bool_decide_eq_true in Hin. apply bool_decide_eq_false.
    rewrite elem_of_classList_toggle. intros [[_ ?]|[? _]]; done.
  - apply bool_decide_eq_false in Hin. apply bool_decide_eq_true.
    rewrite elem_of_classList_toggle. by left.
Qed.

Lemma menuOpen_close s : menuOpen (closeMobileMenu s) = false.
Proof. apply classList_contains_remove. Qed.

Lemma inSync_close s : inSync (closeMobileMenu s).
Proof. unfold inSync. by rewrite menuOpen_close. Qed.

Lemma inSync_expanded s : inSync s -> expanded s = menuOpen s.
Proof.
  intros [Ha _]. unfold expanded. rewrite Ha.
  by destruct (menuOpen s).
Qed.

Lemma inSync_toggle s :
  expanded s = menuOpen s -> inSync (toggleMobileMenu s).
Proof.
  intros He. unfold inSync. rewrite menuOpen_toggle.
  unfold toggleMobileMenu, withMenu. cbn [ariaExpanded bodyOverflow].
  fold (expanded s). rewrite He. by destruct (menuOpen s).
Qed.

(** The parts of the state that make up the menu. *)
Lemma focus_menu n s :
  ariaExpanded (focus n s) = ariaExpanded s /\
  menuClassList (focus n s) = menuClassList s /\
  bodyOverflow (focus n s) = bodyOverflow s.
Proof. unfold focus. by destruct (focusable s n). Qed.

Lemma handleTabNavigation_menu shiftKey s :
  let q := (handleTabNavigation shiftKey s).2 in
  ariaExpanded q = ariaExpanded s /\
  menuClassList q = menuClassList s /\
  bodyOverflow q = bodyOverflow s.
Proof.
  unfold handleTabNavigation.
  destruct shiftKey;
    [destruct (sameNode _ (menuLinks s !! 0%nat))
    |destruct (sameNode _ (last (menuLinks s)))]; simpl; try done.
  - destruct (last (menuLinks s)); simpl; [apply focus_menu | done].
  - destruct (menuLinks s !! 0%nat); simpl; [apply focus_menu | done].
Qed.

Lemma inSync_ext s q :
  ariaExpanded q = ariaExpanded s -> menuClassList q = menuClassList s ->
  bodyOverflow q = bodyOverflow s -> inSync s -> inSync q.
Proof.
  intros Ha Hc Ho [H1 H2]. unfold inSync, menuOpen. by rewrite Ha, Hc, Ho.
Qed.

Lemma inSync_resizeCallback s : inSync s -> inSync (resizeCallback s).
Proof.
  intros Hs. unfold resizeCallback.
  destruct (_ && _); [apply inSync_close | done].
Qed.

Lemma inSync_callbacks {A} (due : list A) s :
  inSync s -> inSync (fold_left (fun s _ => resizeCallback s) due s).
Proof.
  revert s. induction due as [|tm due IH]; intros s Hs; [done |].
  simpl. by apply IH, inSync_resizeCallback.
Qed.

Lemma inSync_step e s : inSync s -> inSync (navStep e s).
Proof.
  intros Hs. destruct e as [t|key shiftKey inMenu next|n|width|ms]; cbn [navStep].
  - assert (Hq : inSync (match t with
                         | OnToggle => toggleMobileMenu s
                         | OnNavLink _ => closeMobileMenu s
                         | Elsewhere _ => s
                         end)).
    { destruct t; [|apply inSync_close | done].
      by apply inSync_toggle, inSync_expanded. }
    unfold documentClick. destruct (_ && _); [apply inSync_close | exact Hq].
  - set (r := if inMenu && bool_decide (key = lit "Tab")
              then handleTabNavigation shiftKey s else (false, s)).
    assert (Hr : inSync r.2).
    { unfold r. destruct (_ && _); [|done].
      destruct (handleTabNavigation_menu shiftKey s) as (Ha & Hc & Ho).
      by eapply inSync_ext. }
    destruct r as [prevented q]. simpl in Hr.
    set (q' := if _ && _ then focus (toggleNode q) (closeMobileMenu q) else q).
    assert (Hq' : inSync q').
    { unfold q'. destruct (_ && _); [|done].
      destruct (focus_menu (toggleNode q) (closeMobileMenu q)) as (Ha & Hc & Ho).
      eapply inSync_ext; [exact Ha | exact Hc | exact Ho | apply inSync_close]. }
    destruct prevented; [done |]. by destruct next.
  - done.
  - done.
  - unfold navElapse. by apply inSync_callbacks.
Qed.

(** X13.  The three marks of the state of the menu stay in agreement:
    once the attribute [aria-expanded], the class [active] of the menu
    and the overflow of the body agree, they agree after every sequence
    of clicks, keys, focus changes, resizes and waits. *)
Theorem nav_marks_agree evs s : inSync s -> inSync (navRun evs s).
Proof.
  revert s. induction evs as [|e evs IH]; intros s Hs; [done |].
  change (navRun (e :: evs) s) with (navRun evs (navStep e s)).
  by apply IH, inSync_step.
Qed.

(** X14.  From any state at all, also one whose marks disagree, a click
    on a nav link and a click outside of the toggle and the menu leave
    the menu closed with its marks in agreement; a click inside the menu
    that is on no link changes nothing. *)
Theorem nav_click_closes s :
  (forall inMenu,
     let q := navStep (Click (OnNavLink inMenu)) s in
     menuOpen q = false /\ inSync q) /\
  (let q := navStep (Click (Elsewhere false)) s in
   menuOpen q = false /\ inSync q) /\
  navStep (Click (Elsewhere true)) s = s.
Proof.
  split; [|split; [|done]].
  - intros inMenu q. subst q. cbn [navStep]. unfold documentClick.
    destruct inMenu; simpl.
    + split; [apply menuOpen_close | apply inSync_close].
    + split; [apply menuOpen_close | apply inSync_close].
  - simpl. split; [apply menuOpen_close | apply inSync_close].
Qed.

Lemma sameMenu_toggle_twice s :
  inSync s -> sameMenu (toggleMobileMenu (toggleMobileMenu s)) s.
Proof.
  intros Hs. pose proof (inSync_expanded s Hs) as He.
  pose proof (inSync_toggle s He) as Hs1.
  pose proof (inSync_expanded _ Hs1) as He1.
  pose proof (inSync_toggle _ He1) as Hs2.
  assert (Hopen : menuOpen (toggleMobileMenu (toggleMobileMenu s)) = menuOpen s).
  { rewrite !menuOpen_toggle. apply negb_involutive. }
  destruct Hs as [Ha Ho], Hs2 as [Ha2 Ho2].
  split; [|split].
  - by rewrite Ha2, Ha, Hopen.
  - by rewrite Ho2, Ho, Hopen.
  - intros c. simpl. rewrite !elem_of_classList_toggle.
    destruct (decide (c = lit "active")) as [->|Hc].
    + split.
      * intros [[_ Hn]|[? _]]; [|done].
        destruct (decide (lit "active" ∈ menuClassList s)) as [|Hout]; [done |].
        exfalso. apply Hn. by left.
      * intros Hin. left. split; [done |].
        intros [[_ ?]|[? _]]; done.
    + split.
      * intros [[? _]|[_ [[? _]|[_ ?]]]]; done.
      * intros Hin. right. split; [done |]. by right.
Qed.

(** X15.  A click on the toggle opens a closed menu and closes an open
    one, and it brings the three marks in agreement whenever the
    attribute says [true] exactly when the menu is open, also when the
    attribute is absent.  Two clicks on the toggle of a menu whose marks
    agree give back the attribute, the overflow and the classes of the
    menu. *)
Theorem nav_toggle_flips s :
  expanded s = menuOpen s ->
  let q := navStep (Click OnToggle) s in
  menuOpen q = negb (menuOpen s) /\ inSync q /\
  (inSync s -> sameMenu (navStep (Click OnToggle) q) s).
Proof.
  intros He q. subst q. cbn [navStep documentClick]. simpl negb. simpl andb.
  cbv iota. split; [apply menuOpen_toggle |].
  split; [by apply inSync_toggle |]. apply sameMenu_toggle_twice.
Qed.

(** X16.  [handleTabNavigation] takes over exactly at the ends of the
    list of links: it prevents the default action when and only when the
    focus is on the last link and Tab is pressed, or on the first link
    and Shift+Tab is pressed; otherwise it changes nothing.  On a menu
    without links it never takes over, wherever the focus is. *)
Theorem handleTabNavigation_at_the_ends shiftKey s :
  let r := handleTabNavigation shiftKey s in
  let boundary :=
    if shiftKey then menuLinks s !! 0%nat else last (menuLinks s) in
  (r.1 = true <->
   exists a, activeElement s = Some a /\ boundary = Some a) /\
  (r.1 = false -> r.2 = s) /\
  (menuLinks s = [] -> r.1 = false).
Proof.
  intros r boundary.
  assert (Hr : r = if sameNode (activeElement s) boundary
                   then (true, from_option (fun n => focus n s) s
                                 (if shiftKey then last (menuLinks s)
                                  else menuLinks s !! 0%nat))
                   else (false, s)).
  { unfold r, boundary, handleTabNavigation. by destruct shiftKey. }
  assert (Hsame : sameNode (activeElement s) boundary = true <->
                  exists a, activeElement s = Some a /\ boundary = Some a).
  { unfold sameNode. destruct (activeElement s) as [a|], boundary as [b|].
    - rewrite bool_decide_eq_true. split.
      + intros ->. eauto.
      + intros (c & [= ->] & [= ->]). done.
    - split; [done | intros (c & _ & ?); done].
    - split; [done | intros (c & ? & _); done].
    - split; [done | intros (c & ? & _); done]. }
  clearbody r. subst r.
  destruct (sameNode (activeElement s) boundary); cbn [fst snd].
  - split; [exact Hsame |]. split; [done |].
    intros Hnil. destruct (proj1 Hsame eq_refl) as (a & _ & Hb).
    unfold boundary in Hb. rewrite Hnil in Hb. by destruct shiftKey.
  - split; [exact Hsame |]. done.
Qed.

(** X17.  The focus is kept in the menu at its ends.  With the first and
    the last link focusable, Tab on the last link moves the focus to the
    first one and Shift+Tab on the first link moves it to the last one,
    wherever the browser would have moved it; one after the other they
    give back the state they started from. *)
Theorem nav_tab_wraps s a b next :
  menuLinks s !! 0%nat = Some a -> last (menuLinks s) = Some b ->
  focusable s a = true -> focusable s b = true ->
  (activeElement s = Some b ->
   let q := navStep (KeyDown (lit "Tab") false true next) s in
   activeElement q = Some a /\
   navStep (KeyDown (lit "Tab") true true next) q = s) /\
  (activeElement s = Some a ->
   activeElement (navStep (KeyDown (lit "Tab") true true next) s) = Some b).
Proof.
  intros Ha Hb Hfa Hfb.
  assert (Hfwd : forall s', menuLinks s' !! 0%nat = Some a ->
            last (menuLinks s') = Some b -> focusable s' a = true ->
            activeElement s' = Some b ->
            navStep (KeyDown (lit "Tab") false true next) s'
            = withActive s' (Some a)).
  { intros s' Hfirst Hlast Hf Hact. cbn [navStep]. simpl andb. cbv iota.
    unfold handleTabNavigation. cbv zeta. rewrite Hfirst, Hlast, Hact.
    unfold sameNode. cbv beta iota. rewrite (bool_decide_eq_true_2 _ eq_refl).
    cbn [from_option]. unfold focus. by rewrite Hf. }
  assert (Hbwd : forall s', menuLinks s' !! 0%nat = Some a ->
            last (menuLinks s') = Some b -> focusable s' b = true ->
            activeElement s' = Some a ->
            navStep (KeyDown (lit "Tab") true true next) s'
            = withActive s' (Some b)).
  { intros s' Hfirst Hlast Hf Hact. cbn [navStep]. simpl andb. cbv iota.
    unfold handleTabNavigation. cbv zeta. rewrite Hfirst, Hlast, Hact.
    unfold sameNode. cbv beta iota. rewrite (bool_decide_eq_true_2 _ eq_refl).
    cbn [from_option]. unfold focus. by rewrite Hf. }
  split.
  - intros Hact q. subst q. rewrite (Hfwd s) by done.
    split; [done |]. rewrite Hbwd by done.
    destruct s. simpl in *. by rewrite Hact.
  - intros Hact. by rewrite (Hbwd s).
Qed.

End NavFacts.

(* ===================================================================== *)
(** ** The Escape key and the resize handler: facts *)
(* ===================================================================== *)

Section NavTimerFacts.

Implicit Types (s q : NavState) (evs : list NavEvent).

(** X18.  The Escape key closes an open menu, leaves its marks in
    agreement and moves the focus to the toggle, if the toggle can be
    focused; on a closed menu it does nothing at all, and in particular
    leaves the focus where it is. *)
Theorem nav_escape s shiftKey inMenu :
  let q := navStep (KeyDown (lit "Escape") shiftKey inMenu None) s in
  if menuOpen s then
    menuOpen q = false /\ inSync q /\
    activeElement q =
      (if focusable s (toggleNode s) then Some (toggleNode s)
       else activeElement s)
  else q = s.
Proof.
  intros q. subst q. cbn [navStep].
  assert (inMenu && bool_decide (lit "Escape" = lit "Tab") = false) as ->
    by by destruct inMenu.
  cbv iota. rewrite (bool_decide_eq_true_2 _ eq_refl). cbn [andb].
  fold (menuOpen s). destruct (menuOpen s); [|done].
  destruct (focus_menu (toggleNode s) (closeMobileMenu s)) as (Ha & Hc & Ho).
  split; [|split].
  - unfold menuOpen. rewrite Hc. apply classList_contains_remove.
  - eapply inSync_ext; [exact Ha | exact Hc | exact Ho | apply inSync_close].
  - unfold focus. cbn [focusable closeMobileMenu withMenu toggleNode].
    by destruct (focusable s (toggleNode s)).
Qed.

(** The callback of the resize timer touches the menu only. *)
Lemma resizeCallbacks_timing {A} (due : list A) s :
  let q := fold_left (fun s _ => resizeCallback s) due s in
  clock q = clock s /\ navTimers q = navTimers s /\
  resizeTimer q = resizeTimer s /\ nextTimerId q = nextTimerId s /\
  innerWidth q = innerWidth s.
Proof.
  revert s. induction due as [|tm due IH]; intros s; [done |].
  simpl. destruct (IH (resizeCallback s)) as (-> & -> & -> & -> & ->).
  unfold resizeCallback. by destruct (_ && _).
Qed.

Lemma navElapse_timing ms s :
  clock (navElapse ms s) = clock s + ms /\
  navTimers (navElapse ms s)
  = List.filter (fun tm => negb (navDue (clock s + ms) tm)) (navTimers s) /\
  resizeTimer (navElapse ms s) = resizeTimer s.
Proof.
  unfold navElapse.
  by destruct (resizeCallbacks_timing
    (List.filter (navDue (clock s + ms)) (navTimers s))
    (mkNav (toggleNode s) (menuLinks s) (focusable s) (ariaExpanded s)
       (menuClassList s) (bodyOverflow s) (activeElement s) (innerWidth s)
       (clock s + ms)
       (List.filter (fun tm => negb (navDue (clock s + ms) tm)) (navTimers s))
       (nextTimerId s) (resizeTimer s))) as (-> & -> & -> & _).
Qed.

(** Clicks, keys and focus changes leave the clock and the timers alone. *)
Lemma navStep_timing e s :
  match e with Resize _ | Wait _ => False | _ => True end ->
  clock (navStep e s) = clock s /\ navTimers (navStep e s) = navTimers s /\
  resizeTimer (navStep e s) = resizeTimer s.
Proof.
  destruct e as [t|key shiftKey inMenu next|n|width|ms]; try done; intros _.
  - cbn [navStep]. unfold documentClick.
    destruct t as [|m|m]; try destruct m; done.
  - cbn [navStep].
    destruct (inMenu && bool_decide (key = lit "Tab")).
    + unfold handleTabNavigation, focus.
      destruct shiftKey, (sameNode _ _), (last (menuLinks s)) as [b|],
        (menuLinks s !! 0%nat) as [a|]; cbn [from_option];
        try destruct (focusable s a); try destruct (focusable s b);
        destruct (_ && _), next; unfold focus; cbn [focusable closeMobileMenu
          withMenu toggleNode]; try destruct (focusable s (toggleNode s));
        done.
    + destruct (_ && _), next; unfold focus; cbn [focusable closeMobileMenu
        withMenu toggleNode]; try destruct (focusable s (toggleNode s)); done.
Qed.

Lemma debounced_step e s : debounced s -> debounced (navStep e s).
Proof.
  intros [Hlen Hall].
  destruct e as [t|key shiftKey inMenu next|n|width|ms].
  - unfold debounced.
    by destruct (navStep_timing (Click t) s I) as (-> & -> & ->).
  - unfold debounced.
    by destruct (navStep_timing (KeyDown key shiftKey inMenu next) s I)
      as (-> & -> & ->).
  - unfold debounced.
    by destruct (navStep_timing (FocusMoved n) s I) as (-> & -> & ->).
  - cbn [navStep]. unfold handleResize, debounced.
    cbn [navTimers resizeTimer clock].
    assert (clearTimeout (resizeTimer s) (navTimers s) = []) as ->.
    { destruct (navTimers s) as [|tm l] eqn:Ht.
      - by destruct (resizeTimer s).
      - destruct l; [|simpl in Hlen; lia].
        destruct (Hall tm) as (-> & _); [by left |].
        simpl. by rewrite Nat.eqb_refl. }
    split; [simpl; lia |].
    intros tm ->%list_elem_of_singleton. simpl. split; [done | lia].
  - cbn [navStep]. unfold debounced.
    destruct (navElapse_timing ms s) as (-> & -> & ->). split.
    + etransitivity; [apply List.filter_length_le | exact Hlen].
    + intros tm [Htm Hdue]%list_elem_of_In%filter_In.
      apply list_elem_of_In, Hall in Htm as (Hid & _ & Hhi).
      unfold navDue in Hdue. apply negb_true_iff, N.leb_gt in Hdue.
      split; [done | lia].
Qed.

(** X19.  The resize handler is debounced.  From a state with at most
    one pending callback, the one that [resizeTimer] names, this stays
    so after every sequence of events; a resize then cancels the pending
    callback, so that the only one left is its own, due 250 milliseconds
    later. *)
Theorem resize_debounced evs s width :
  debounced s ->
  let q := navRun evs s in
  debounced q /\
  navTimers (navStep (Resize width) q) = [(nextTimerId q, clock q + 250)].
Proof.
  intros Hd q.
  assert (Hq : debounced q).
  { unfold q. clear q. revert s Hd.
    induction evs as [|e evs IH]; intros s Hd; [done |].
    change (navRun (e :: evs) s) with (navRun evs (navStep e s)).
    by apply IH, debounced_step. }
  clearbody q. split; [exact Hq |].
  destruct Hq as [Hlen Hall]. cbn [navStep]. unfold handleResize.
  cbn [navTimers].
  destruct (navTimers q) as [|tm l] eqn:Ht.
  - by destruct (resizeTimer q).
  - destruct l; [|simpl in Hlen; lia].
    destruct (Hall tm) as (-> & _); [by left |].
    simpl. by rewrite Nat.eqb_refl.
Qed.

(** X20.  A resize, followed by at least 250 milliseconds without
    another one, closes the menu if the window is then at least 768
    wide, and leaves the menu as it was if the window is narrower; in
    both cases no callback is left pending. *)
Theorem resize_closes_on_desktop s width ms :
  debounced s -> 250 <= ms ->
  let q := navRun [Resize width; Wait ms] s in
  navTimers q = [] /\
  (768 <= width -> menuOpen q = false) /\
  (width < 768 ->
   ariaExpanded q = ariaExpanded s /\ menuClassList q = menuClassList s /\
   bodyOverflow q = bodyOverflow s).
Proof.
  intros Hd Hms q. subst q. unfold navRun. cbn [fold_left].
  assert (Hr : navStep (Resize width) s =
               mkNav (toggleNode s) (menuLinks s) (focusable s)
                 (ariaExpanded s) (menuClassList s) (bodyOverflow s)
                 (activeElement s) width (clock s)
                 [(nextTimerId s, clock s + 250)]
                 (S (nextTimerId s)) (Some (nextTimerId s))).
  { cbn [navStep]. unfold handleResize. f_equal.
    destruct Hd as [Hlen Hall].
    destruct (navTimers s) as [|tm l] eqn:Ht.
    - by destruct (resizeTimer s).
    - destruct l; [|simpl in Hlen; lia].
      destruct (Hall tm) as (-> & _); [by left |].
      simpl. by rewrite Nat.eqb_refl. }
  rewrite Hr. cbn [navStep]. unfold navElapse, navDue.
  cbn [navTimers clock List.filter snd toggleNode menuLinks focusable
       ariaExpanded menuClassList bodyOverflow activeElement innerWidth
       nextTimerId resizeTimer].
  assert ((clock s + 250 <=? clock s + ms) = true) as ->
    by (apply N.leb_le; lia).
  cbn [negb fold_left]. unfold resizeCallback. cbn [innerWidth menuClassList].
  split; [|split].
  - by destruct (_ && _).
  - intros Hw. apply N.leb_le in Hw. rewrite Hw. cbn [andb].
    destruct (classList_contains (lit "active") (menuClassList s)) eqn:Hopen.
    + apply menuOpen_close.
    + exact Hopen.
  - intros Hw. apply N.leb_gt in Hw. by rewrite Hw.
Qed.

End NavTimerFacts.

(* ===================================================================== *)
(** ** The scroll animations: facts *)
(* ===================================================================== *)

Section ScrollFacts.

Implicit Types (entries : list ObserverEntry) (cards : list (list js_string)).

Lemma observerCallback_cons entry entries cards :
  observerCallback (entry :: entries) cards
  = observerCallback entries
      (if entry.2 then
         match cards !! entry.1 with
         | Some classes =>
             <[entry.1 := classList_add (lit "animate-in") classes]> cards
         | None => cards
         end
       else cards).
Proof. done. Qed.

(** X21.  The callback of the observer only ever adds the class
    [animate-in], and adds it to exactly the cards that an entry reports
    as intersecting: afterwards a card carries a class if and only if it
    carried it before, or the class is [animate-in] and some entry for
    this card is intersecting.  No card is added or removed. *)
Theorem observerCallback_adds_animate_in entries cards :
  length (observerCallback entries cards) = length cards /\
  forall i classes, cards !! i = Some classes ->
    exists classes', observerCallback entries cards !! i = Some classes' /\
      forall c, c ∈ classes' <->
        c ∈ classes \/ (c = lit "animate-in" /\ (i, true) ∈ entries).
Proof.
  revert cards. induction entries as [|[j b] entries IH]; intros cards.
  - split; [done |]. intros i classes Hi. exists classes. split; [done |].
    intros c. split; [by left |]. intros [?|[_ ?%elem_of_nil]]; done.
  - rewrite observerCallback_cons. cbn [fst snd].
    set (cards' := if b then _ else cards).
    assert (Hlen : length cards' = length cards).
    { unfold cards'. destruct b; [|done].
      destruct (cards !! j); [apply length_insert | done]. }
    assert (Hcards : forall i classes, cards !! i = Some classes ->
              exists classes1, cards' !! i = Some classes1 /\
                forall c, c ∈ classes1 <->
                  c ∈ classes \/ (c = lit "animate-in" /\ i = j /\ b = true)).
    { intros i classes Hi. unfold cards'. destruct b.
      - destruct (decide (i = j)) as [->|Hij].
        + rewrite Hi. eexists. split.
          * apply list_lookup_insert_eq. by eapply lookup_lt_Some.
          * intros c. rewrite elem_of_classList_add. tauto.
        + exists classes. split.
          * destruct (cards !! j); [by rewrite list_lookup_insert_ne | done].
          * intros c. tauto.
      - exists classes. split; [done |]. intros c.
        split; [by left | intros [?|(_ & _ & ?)]; done]. }
    destruct (IH cards') as [IHlen IHeach].
    split; [by rewrite IHlen |].
    intros i classes Hi.
    destruct (Hcards i classes Hi) as (classes1 & H1 & Hc1).
    destruct (IHeach i classes1 H1) as (classes' & H' & Hc').
    exists classes'. split; [exact H' |].
    intros c. rewrite Hc', Hc1, elem_of_cons.
    assert ((i, true) = (j, b) <-> i = j /\ b = true) as ->.
    { split; [by intros [= -> <-] | by intros [-> ->]]. }
    tauto.
Qed.

End ScrollFacts.

(* ===================================================================== *)
(** ** The further properties on the sample form and the sample menu *)
(* ===================================================================== *)

Section MoreSamples.

#[local] Existing Instance sampleEngine.

Lemma validateField_required_raw_name_witness :
  let field := mkField (lit "phone") (lit "  ") [] [] in
  let doc : ErrorElements := {[ lit "phone-error" := lit "old" ]} in
  (name field ∉ ownLabelNames) /\ (name field ∉ inheritedNames) /\
  Forall (fun c => isWhiteSpace c = true) (value field) /\
  errorText (validateField field doc).2.1 (validateField field doc).2.2
  = Some (lit "phone is required.").
Proof.
  intros field doc.
  assert (H1 : name field ∉ ownLabelNames).
  { apply (bool_decide_unpack _). by vm_compute. }
  assert (H2 : name field ∉ inheritedNames).
  { apply (bool_decide_unpack _). by vm_compute. }
  assert (H3 : Forall (fun c => isWhiteSpace c = true) (value field))
    by (by repeat constructor).
  split; [exact H1 |]. split; [exact H2 |]. split; [exact H3 |].
  destruct (validateField_required_raw_name field doc H1 H2 H3) as [_ Ht].
  etransitivity; [exact Ht |]. unfold errorText, doc, field. simpl name.
  by rewrite lookup_singleton_eq.
Defined.

Lemma isValidEmail_necessary_witness :
  isValidEmail (lit "a@b.c") = true /\
  length (List.filter (N.eqb 64) (lit "a@b.c")) = 1%nat /\
  (5 <= length (lit "a@b.c"))%nat.
Proof.
  assert (H1 : isValidEmail (lit "a@b.c") = true) by (by vm_compute).
  split; [exact H1 |].
  destruct (isValidEmail_necessary (lit "a@b.c") H1) as (_ & Hat & _ & Hlen).
  split; [exact Hat | exact Hlen].
Defined.

Lemma handleFormSubmit_valid_clears_errors_witness :
  formValid samplePage = true /\
  statusElement (step Submit samplePage) = statusElement samplePage /\
  timers (step Submit samplePage) = timers samplePage.
Proof.
  assert (H1 : formValid samplePage = true) by (by vm_compute).
  split; [exact H1 |].
  exact (proj2 (handleFormSubmit_valid_clears_errors samplePage H1)).
Defined.

Lemma handleFormSubmit_retry_witness :
  let q := run [Submit; Settle 0 (Rejected simulatedError)] samplePage in
  formValid samplePage = true /\ suspended samplePage = [] /\
  formValid q = true /\
  suspended (step Submit q) = [lit "Send Message"].
Proof.
  intros q.
  assert (H1 : formValid samplePage = true) by (by vm_compute).
  assert (H2 : suspended samplePage = []) by reflexivity.
  split; [exact H1 |]. split; [exact H2 |].
  destruct (handleFormSubmit_retry samplePage simulatedError H1 H2)
    as (Hv & _ & _ & _ & _ & Hs).
  split; [exact Hv | exact Hs].
Defined.

Lemma handleFormSubmit_empty_after_success_witness :
  let q := step (Settle 0 Fulfilled) waitingPage in
  suspended waitingPage !! 0%nat = Some (lit "Send Message") /\
  formInputs waitingPage <> [] /\
  Forall (fun f => defaultValue f = []) (formInputs waitingPage) /\
  formValid q = false /\
  statusElement (step Submit q) =
    mkStatus (lit "Please correct the errors above.") (lit "form-status error").
Proof.
  intros q.
  assert (H1 : suspended waitingPage !! 0%nat = Some (lit "Send Message"))
    by reflexivity.
  assert (H2 : formInputs waitingPage <> []) by done.
  assert (H3 : Forall (fun f => defaultValue f = []) (formInputs waitingPage))
    by (by repeat constructor).
  split; [exact H1 |]. split; [exact H2 |]. split; [exact H3 |].
  destruct (handleFormSubmit_empty_after_success waitingPage 0 _ H1 H2 H3)
    as (Hv & Hs & _).
  split; [exact Hv | exact Hs].
Defined.

Lemma showFormStatus_quiescent_witness :
  let evs := [Submit; Elapse 2000; Settle 0 Fulfilled; Submit; Elapse 100] in
  let q := step (Elapse 5000) (run evs samplePage) in
  timersFresh samplePage /\ statusBacked samplePage /\ 5000 <= 5000 /\
  className (statusElement q) = lit "form-status" /\ timers q = [].
Proof.
  intros evs q.
  assert (H1 : timersFresh samplePage).
  { intros tm Htm. by apply elem_of_nil in Htm. }
  assert (H2 : statusBacked samplePage) by (by left).
  assert (H3 : 5000 <= 5000) by lia.
  split; [exact H1 |]. split; [exact H2 |]. split; [exact H3 |].
  exact (showFormStatus_quiescent evs samplePage 5000 H1 H2 H3).
Defined.

Lemma status_stays_known_witness :
  let evs := [Submit; Settle 0 Fulfilled] in
  statusKnown (statusElement samplePage) /\
  statusKnown (statusElement (run evs samplePage)).
Proof.
  intros evs.
  assert (H1 : statusKnown (statusElement samplePage)) by (by left).
  split; [exact H1 |].
  exact (proj1 (status_stays_known evs samplePage H1)).
Defined.

Lemma handleFormSubmit_reentered_witness :
  let q := run [Submit; Submit; Settle 0 Fulfilled;
                Settle 0 (Rejected simulatedError)] samplePage in
  formValid samplePage = true /\ suspended samplePage = [] /\
  disabled (submitButton q) = false /\
  textContent (submitButton q) = lit "Sending...".
Proof.
  intros q.
  assert (H1 : formValid samplePage = true) by (by vm_compute).
  assert (H2 : suspended samplePage = []) by reflexivity.
  split; [exact H1 |]. split; [exact H2 |].
  destruct (handleFormSubmit_reentered samplePage Fulfilled
              (Rejected simulatedError) H1 H2) as (Hd & Ht & _).
  split; [exact Hd | exact Ht].
Defined.

Lemma sampleNav_inSync : inSync sampleNav.
Proof. split; reflexivity. Defined.

Lemma sampleNav_debounced : debounced sampleNav.
Proof.
  split; [simpl; lia |]. intros tm Htm. by apply elem_of_nil in Htm.
Defined.

Lemma nav_marks_agree_witness :
  let evs := [Click OnToggle; KeyDown (lit "Tab") false true (Some 2%nat);
              Resize 1024; Wait 300; Click OnToggle;
              KeyDown (lit "Escape") false false None] in
  inSync sampleNav /\ inSync (navRun evs sampleNav).
Proof.
  intros evs. split; [exact sampleNav_inSync |].
  exact (nav_marks_agree evs sampleNav sampleNav_inSync).
Defined.

Lemma nav_toggle_flips_witness :
  expanded sampleNav = menuOpen sampleNav /\
  menuOpen (navStep (Click OnToggle) sampleNav) = true /\
  inSync (navStep (Click OnToggle) sampleNav).
Proof.
  assert (H1 : expanded sampleNav = menuOpen sampleNav) by reflexivity.
  split; [exact H1 |].
  destruct (nav_toggle_flips sampleNav H1) as (Ho & Hs & _).
  split; [exact Ho | exact Hs].
Defined.

Lemma handleTabNavigation_at_the_ends_witness :
  let s := withActive sampleNav (Some 2%nat) in
  (handleTabNavigation false s).1 = false /\
  (handleTabNavigation false s).2 = s.
Proof.
  intros s.
  destruct (handleTabNavigation_at_the_ends false s) as (_ & Hsame & _).
  assert (H1 : (handleTabNavigation false s).1 = false) by reflexivity.
  split; [exact H1 | exact (Hsame H1)].
Defined.

Lemma nav_tab_wraps_witness :
  let s := withActive sampleNav (Some 3%nat) in
  menuLinks s !! 0%nat = Some 1%nat /\ last (menuLinks s) = Some 3%nat /\
  focusable s 1%nat = true /\ focusable s 3%nat = true /\
  activeElement s = Some 3%nat /\
  activeElement (navStep (KeyDown (lit "Tab") false true (Some 7%nat)) s)
  = Some 1%nat.
Proof.
  intros s.
  assert (H1 : menuLinks s !! 0%nat = Some 1%nat) by reflexivity.
  assert (H2 : last (menuLinks s) = Some 3%nat) by reflexivity.
  assert (H3 : focusable s 1%nat = true) by reflexivity.
  assert (H4 : focusable s 3%nat = true) by reflexivity.
  assert (H5 : activeElement s = Some 3%nat) by reflexivity.
  split; [exact H1 |]. split; [exact H2 |]. split; [exact H3 |].
  split; [exact H4 |]. split; [exact H5 |].
  exact (proj1 (proj1 (nav_tab_wraps s 1%nat 3%nat (Some 7%nat) H1 H2 H3 H4)
                  H5)).
Defined.

Lemma resize_debounced_witness :
  let evs := [Resize 800; Wait 100; Resize 1024; Wait 100] in
  debounced sampleNav /\
  debounced (navRun evs sampleNav) /\
  length (navTimers (navStep (Resize 600) (navRun evs sampleNav))) = 1%nat.
Proof.
  intros evs. split; [exact sampleNav_debounced |].
  destruct (resize_debounced evs sampleNav 600 sampleNav_debounced)
    as [Hd Ht].
  split; [exact Hd |]. by rewrite Ht.
Defined.

Lemma resize_closes_on_desktop_witness :
  let s := navStep (Click OnToggle) sampleNav in
  debounced s /\ 250 <= 250 /\ 768 <= 1024 /\
  menuOpen s = true /\
  menuOpen (navRun [Resize 1024; Wait 250] s) = false.
Proof.
  intros s.
  assert (H1 : debounced s).
  { split; [simpl; lia |]. intros tm Htm. by apply elem_of_nil in Htm. }
  assert (H2 : 250 <= 250) by lia.
  assert (H3 : 768 <= 1024) by lia.
  split; [exact H1 |]. split; [exact H2 |]. split; [exact H3 |].
  split; [reflexivity |].
  exact (proj1 (proj2 (resize_closes_on_desktop s 1024 250 H1 H2)) H3).
Defined.

Lemma observerCallback_adds_animate_in_witness :
  let cards := [[lit "feature-card"]; [lit "feature-card"]] in
  let entries : list ObserverEntry := [(0%nat, false); (1%nat, true)] in
  cards !! 1%nat = Some [lit "feature-card"] /\
  exists classes',
    observerCallback entries cards !! 1%nat = Some classes' /\
    lit "animate-in" ∈ classes'.
Proof.
  intros cards entries.
  assert (H1 : cards !! 1%nat = Some [lit "feature-card"]) by reflexivity.
  split; [exact H1 |].
  destruct (proj2 (observerCallback_adds_animate_in entries cards) 1%nat _ H1)
    as (classes' & Hl & Hc).
  exists classes'. split; [exact Hl |].
  apply Hc. right. split; [done |]. right. by left.
Defined.

End MoreSamples.
